(** * DeepLens patch utilities: a shallow embedding and its properties

    The repository holds four Python scripts:
    - [fix_denormalize.py]: [safe_denormalize], a rank-tolerant ImageNet
      de-normalisation on torch tensors;
    - [fix_notebook.py]: a one-shot patcher of a Jupyter notebook document;
    - [fix_psf_radial.py]: [fixed_psf_radial], the strict PSF plotter;
    - [fix_psf_radial_robust.py]: [robust_psf_radial], the plotter with a
      three-tier fallback.

    Part I embeds the code; Part II states and proves its properties. *)

From Stdlib Require Import Reals Lra Lia ZArith QArith Qreals String Ascii List Floats.
From stdpp Require Import base gmap list strings pretty.

Set Default Proof Using "Type".

(* ===================================================================== *)
(** * Part I: the embedding                                               *)
(* ===================================================================== *)

(** ** Python exceptions and fallible computations *)

Module Py.

(** The exception classes the scripts and their libraries raise.  All of
    them derive from [Exception]; [AssertionError] is the class the lens
    simulator uses for invalid ray geometry. *)
Inductive exn : Type :=
| AssertionError
| IndexError
| RuntimeError
| FileNotFoundError
| OtherError (name : string).

(** [isinstance(e, AssertionError)], the test of [except AssertionError]. *)
Definition is_AssertionError (e : exn) : bool :=
  match e with AssertionError => true | _ => false end.

(** A computation either returns or raises. *)
Inductive result (A : Type) : Type :=
| Ok (a : A)
| Raise (e : exn).
Arguments Ok {A} a.
Arguments Raise {A} e.

#[export] Instance result_ret : MRet result := fun A a => Ok a.
#[export] Instance result_bind : MBind result := fun A B f m =>
  match m with Ok a => f a | Raise e => Raise e end.
#[export] Instance result_fmap : FMap result := fun A B f m =>
  match m with Ok a => Ok (f a) | Raise e => Raise e end.

End Py.
Import Py.

(** ** Torch tensors *)

Module Torch.

(** The element type of a tensor (its dtype): the arithmetic that
    [safe_denormalize] uses, and the conversion [lit] of a Python float
    literal to the dtype when it is stored into the tensor. *)
Class Scalar (A : Type) : Type := {
  zero : A;
  add : A -> A -> A;
  mul : A -> A -> A;
  lit : Q -> A
}.

(** Real numbers: the idealised arithmetic. *)
#[export] Instance Scalar_R : Scalar R :=
  {| zero := 0%R; add := Rplus; mul := Rmult; lit := Q2R |}.

(** Integer dtypes: a float literal stored into an integer tensor is
    truncated towards zero. *)
#[export] Instance Scalar_Z : Scalar Z :=
  {| zero := 0%Z; add := Z.add; mul := Z.mul;
     lit := fun q => Z.quot (Qnum q) (Z.pos (Qden q)) |}.

(** IEEE 754 binary64.  Numerator and denominator of the literals used
    here are exactly representable, so the correctly rounded quotient is
    the double nearest to the literal. *)
#[export] Instance Scalar_float : Scalar float :=
  {| zero := 0%float; add := PrimFloat.add; mul := PrimFloat.mul;
     lit := fun q => PrimFloat.div (PrimFloat.of_uint63 (Uint63.of_Z (Qnum q)))
                                   (PrimFloat.of_uint63 (Uint63.of_Z (Z.pos (Qden q)))) |}.

(** A tensor is its shape and its elements in row-major order. *)
Record tensor (A : Type) : Type := Tensor {
  shape : list nat;
  data : list A
}.
Arguments Tensor {A} shape data.
Arguments shape {A} t.
Arguments data {A} t.

(** [t.dim()] *)
Definition dim {A} (t : tensor A) : nat := length (shape t).

(** Number of elements of a shape. *)
Definition numel (s : list nat) : nat := foldr Nat.mul 1 s.

(** A tensor is well formed when it has as many elements as its shape says. *)
Definition wf {A} (t : tensor A) : Prop := length (data t) = numel (shape t).

(** [t.unsqueeze(0)] *)
Definition unsqueeze0 {A} (t : tensor A) : tensor A :=
  Tensor (1 :: shape t) (data t).

(** [t.squeeze(0)]: drops dimension 0 when its size is 1, else no change. *)
Definition squeeze0 {A} (t : tensor A) : tensor A :=
  match shape t with
  | 1 :: s => Tensor s (data t)
  | _ => t
  end.

(** [torch.zeros_like(t)] *)
Definition zeros_like {A} `{Scalar A} (t : tensor A) : tensor A :=
  Tensor (shape t) (map (fun _ => zero) (data t)).

(** The coordinate along dimension 1 of the element at flat index [k]. *)
Definition channel_index (s : list nat) (k : nat) : nat :=
  match s with
  | _ :: c :: rest => (k / numel rest) mod c
  | _ => 0
  end.

(** [t[:, c, :, :] = v].  Four indices on a tensor of rank below 4, or a
    channel beyond dimension 1, raise [IndexError]. *)
Definition set_channel {A} (c : nat) (v : A) (t : tensor A) : result (tensor A) :=
  match shape t with
  | _ :: ch :: _ :: _ :: _ =>
      if c <? ch
      then Ok (Tensor (shape t)
                 (imap (fun k x => if channel_index (shape t) k =? c then v else x) (data t)))
      else Raise IndexError
  | _ => Raise IndexError
  end.

(** Elementwise binary operation of two tensors of one shape.  The only
    uses are on a tensor and a [zeros_like] of it, so broadcasting between
    different shapes is not modelled: it raises. *)
Definition pointwise {A} (f : A -> A -> A) (a b : tensor A) : result (tensor A) :=
  if decide (shape a = shape b)
  then Ok (Tensor (shape a) (zip_with f (data a) (data b)))
  else Raise RuntimeError.

End Torch.
Import Torch.

(** ** fix_denormalize.py *)

Module FixDenormalize.

Section Dtype.
Context {A : Type} `{Scalar A}.

(** [safe_denormalize(tensor)] *)
Definition safe_denormalize (tensor : tensor A) : result (Torch.tensor A) :=
  let original_dim := dim tensor in
  let tensor := if original_dim =? 3 then unsqueeze0 tensor else tensor in
  let mean := zeros_like tensor in
  let std := zeros_like tensor in
  mean ← set_channel 0 (lit 0.485) mean;
  mean ← set_channel 1 (lit 0.456) mean;
  mean ← set_channel 2 (lit 0.406) mean;
  std ← set_channel 0 (lit 0.229) std;
  std ← set_channel 1 (lit 0.224) std;
  std ← set_channel 2 (lit 0.225) std;
  scaled ← pointwise mul tensor std;
  result ← pointwise add scaled mean;
  mret (if original_dim =? 3 then squeeze0 result else result).

(** Elements of [mean] and of [std] after their three channel
    assignments, for a tensor of shape [s] with elements [d]. *)
Definition mean_data (s : list nat) (d : list A) : list A :=
  imap (fun k x => if channel_index s k =? 2 then lit 0.406 else x)
    (imap (fun k x => if channel_index s k =? 1 then lit 0.456 else x)
       (imap (fun k x => if channel_index s k =? 0 then lit 0.485 else x)
          (map (fun _ => zero) d))).

Definition std_data (s : list nat) (d : list A) : list A :=
  imap (fun k x => if channel_index s k =? 2 then lit 0.225 else x)
    (imap (fun k x => if channel_index s k =? 1 then lit 0.224 else x)
       (imap (fun k x => if channel_index s k =? 0 then lit 0.229 else x)
          (map (fun _ => zero) d))).

End Dtype.

(** Size of the channel dimension of a channel-first image tensor:
    dimension 0 without a batch dimension, dimension 1 with one. *)
Definition channels {A} (t : tensor A) : nat :=
  match shape t with
  | [c; _; _] => c
  | [_; c; _; _] => c
  | _ => 0
  end.

End FixDenormalize.
Import FixDenormalize.

(** ** Python strings *)

Module PyStr.

(** The line feed that ends a notebook source line. *)
Definition LF : string := String "010"%char EmptyString.

(** [pat in s]: [pat] occurs in [s] as a substring. *)
Fixpoint str_in (pat s : string) : bool :=
  String.prefix pat s ||
  match s with
  | EmptyString => false
  | String _ s' => str_in pat s'
  end.

(** [''.join(lines)] *)
Definition join (lines : list string) : string := String.concat EmptyString lines.

(** [s.replace(old, new)] for a non-empty [old]: the occurrences of [old]
    are replaced from left to right, without overlap.  [skip] counts the
    characters of a matched occurrence still to be dropped. *)
Fixpoint replace_from (old new : string) (skip : nat) (s : string) : string :=
  match s with
  | EmptyString => EmptyString
  | String c s' =>
      match skip with
      | S k => replace_from old new k s'
      | O =>
          if String.prefix old s
          then new +:+ replace_from old new (String.length old - 1) s'
          else String c (replace_from old new 0 s')
      end
  end.

Definition str_replace (old new s : string) : string := replace_from old new 0 s.

End PyStr.
Import PyStr.

(** ** fix_notebook.py *)

Module FixNotebook.

(** A notebook cell.  The script reads [cell_type] and [source]; the other
    keys of the JSON object are carried along as they are. *)
Record cell : Type := Cell {
  cell_type : string;
  source : list string;
  cell_other : list (string * string)
}.

(** A notebook document: its cells in order, and its other keys. *)
Record document : Type := Document {
  doc_cells : list cell;
  doc_other : list (string * string)
}.

(** What the script can observe and change: files and standard output. *)
Record world : Type := World {
  files : gmap string document;
  stdout : list string
}.

Definition write_file (path : string) (doc : document) (w : world) : world :=
  World (<[path := doc]> (files w)) (stdout w).

Definition print (line : string) (w : world) : world :=
  World (files w) (stdout w ++ [line]).

Definition NOTEBOOK_PATH : string := "/home/yz/DeepLens/1_end2end_5lines.ipynb".

Definition backup_path : string := NOTEBOOK_PATH +:+ ".bak".

Definition import_cell : cell :=
  {| cell_type := "code";
     source := [ "# Fix for tensor dimension issues" +:+ LF;
                 "from fix_denormalize import safe_denormalize, vis_sample" ];
     cell_other := [ ("execution_count", "null"); ("metadata", "{}"); ("outputs", "[]") ] |}.

Definition dataset_path_cell : cell :=
  {| cell_type := "code";
     source := [ "# Update DIV2K dataset path" +:+ LF;
                 "DIV2K_PATH = '/nas1/DIV2K'" +:+ LF;
                 "os.makedirs(DIV2K_PATH, exist_ok=True)" +:+ LF;
                 "print(f'DIV2K dataset will be stored in {DIV2K_PATH}')" ];
     cell_other := [ ("execution_count", "null"); ("metadata", "{}"); ("outputs", "[]") ] |}.

(** The body of the inner loop: what is appended to [new_source] for [line]. *)
Definition rewrite_line (line : string) : string :=
  if str_in "DIV2K_PATH" line && negb (str_in "/nas1/DIV2K" line)
  then "    DIV2K_PATH = '/nas1/DIV2K'  # Updated path" +:+ LF
  else if str_in "denormalize_ImageNet" line
  then str_replace "denormalize_ImageNet" "safe_denormalize" line
  else line.

(** The test of the outer loop. *)
Definition is_train_cell (c : cell) : bool :=
  String.eqb (cell_type c) "code" && str_in "def end2end_train" (join (source c)).

(** [cell['source'] = new_source] *)
Definition set_source (new_source : list string) (c : cell) : cell :=
  {| cell_type := cell_type c; source := new_source; cell_other := cell_other c |}.

(** The cells are Python dicts: the list [notebook['cells']] holds
    references into a heap of dict objects, and the loop changes the
    objects in place.  An address is an index into the heap. *)
Abbreviation heap := (list cell).

(** One iteration of [for cell in notebook['cells']], on the reference [r]. *)
Definition visit (st : heap * list nat) (r : nat) : heap * list nat :=
  let '(h, modified_cells) := st in
  match h !! r with
  | Some c =>
      let h := if is_train_cell c
               then <[r := set_source (map rewrite_line (source c)) c]> h
               else h in
      (h, modified_cells ++ [r])
  | None => st
  end.

(** [json.dump]: the document that a list of cell references denotes now. *)
Definition dump (h : heap) (refs : list nat) (other : list (string * string)) : document :=
  Document (omap (fun r => h !! r) refs) other.

(** The script, run on a world. It returns the exception that ends it, if any. *)
Definition fix_notebook (w : world) : result unit * world :=
  match files w !! NOTEBOOK_PATH with
  | None => (Raise FileNotFoundError, w)
  | Some doc =>
      (* notebook = json.load(f): one fresh dict per cell *)
      let h : heap := doc_cells doc in
      let nb_cells := seq 0 (length h) in
      let w := write_file backup_path (dump h nb_cells (doc_other doc)) w in
      let w := print ("Created backup at " +:+ backup_path) w in
      let import_ref := length h in
      let h := h ++ [import_cell] in
      let dataset_ref := length h in
      let h := h ++ [dataset_path_cell] in
      let '(h, modified_cells) := foldl visit (h, []) nb_cells in
      match nb_cells with
      | [] => (Raise IndexError, w)
      | first :: rest =>
          let nb_cells := [first] ++ [import_ref; dataset_ref] ++ rest in
          let w := write_file NOTEBOOK_PATH (dump h nb_cells (doc_other doc)) w in
          let w := print ("Modified notebook " +:+ NOTEBOOK_PATH +:+
                          " to use safe_denormalize function and update DIV2K path") w in
          let w := print "Please run the notebook and use the vis_sample function instead of manual visualization code" w in
          let w := print "Example usage of vis_sample:" w in
          let w := print "```" w in
          let w := print "vis_sample(img_org, img_render, img_rec, loss=loss.item(), epoch=epoch, batch=batch_idx)" w in
          let w := print "```" w in
          (Ok (), w)
      end
  end.

(** What the outer loop does to one cell. *)
Definition patch_cell (c : cell) : cell :=
  if is_train_cell c then set_source (map rewrite_line (source c)) c else c.

(** Where the cell at position [i] of the input is in the output. *)
Definition new_position (i : nat) : nat :=
  match i with 0 => 0 | S _ => i + 2 end.

(** The two conditions of the inner loop, as properties of a line. *)
Definition needs_new_path (line : string) : Prop :=
  str_in "DIV2K_PATH" line = true /\ str_in "/nas1/DIV2K" line = false.

Definition names_old_helper (line : string) : Prop :=
  str_in "denormalize_ImageNet" line = true.

(** Sample documents. *)
Definition train_cell : cell :=
  {| cell_type := "code";
     source := [ "def end2end_train(lens, net):" +:+ LF;
                 "    DIV2K_PATH = './datasets/DIV2K'" +:+ LF;
                 "    img = denormalize_ImageNet(img_org)" +:+ LF;
                 "    return img" ];
     cell_other := [ ("execution_count", "3"); ("metadata", "{}"); ("outputs", "[]") ] |}.

Definition title_cell : cell :=
  {| cell_type := "markdown";
     source := [ "# End-to-end lens design" ];
     cell_other := [ ("metadata", "{}") ] |}.

Definition notes_cell : cell :=
  {| cell_type := "markdown";
     source := [ "The loop is in `def end2end_train`;" +:+ LF;
                 "it calls denormalize_ImageNet on every batch." ];
     cell_other := [ ("metadata", "{}") ] |}.

Definition world_of (cs : list cell) : world :=
  World {[ NOTEBOOK_PATH := Document cs [("nbformat", "4")] ]} [].

End FixNotebook.
Import FixNotebook.

(** ** fix_psf_radial.py and fix_psf_radial_robust.py *)

Module Psf.

(** *** Real-valued tensors

    PSF values are floats; their arithmetic ([exp], [log], division) is
    modelled on the real numbers. *)

(** [t.max()] and [t.min()]: they raise on a tensor without elements. *)
Definition tmax (t : tensor R) : result R :=
  match data t with
  | [] => Raise RuntimeError
  | x :: l => Ok (foldl Rmax x l)
  end.

Definition tmin (t : tensor R) : result R :=
  match data t with
  | [] => Raise RuntimeError
  | x :: l => Ok (foldl Rmin x l)
  end.

(** [t.sum()] *)
Definition tsum (t : tensor R) : R := foldr Rplus 0%R (data t).

(** An elementwise operation. *)
Definition tmap (f : R -> R) (t : tensor R) : tensor R :=
  Tensor (shape t) (map f (data t)).

(** [torch.stack(ts, dim=0)]: the list must be non-empty and of one shape. *)
Definition stack (ts : list (tensor R)) : result (tensor R) :=
  match ts with
  | [] => Raise RuntimeError
  | t :: _ =>
      if forallb (fun u => bool_decide (shape u = shape t)) ts
      then Ok (Tensor (length ts :: shape t) (concat (map data ts)))
      else Raise RuntimeError
  end.

(** [torch.linspace(a, b, n)] *)
Definition linspace (a b : R) (n : nat) : list R :=
  match n with
  | 1 => [a]
  | _ => map (fun i => (a + INR i * ((b - a) / INR (n - 1)))%R) (seq 0 n)
  end.

(** *** Field points, lens and world *)

(** The object depth: a distance, or [float('inf')]. *)
Inductive depth : Type :=
| Finite (d : R)
| Infinite.

(** A row of [points]: normalised lateral position and depth. *)
Record field_point : Type := FieldPoint {
  px : R;
  py : R;
  pz : depth
}.

(** [torch.full_like(x, depth)] *)
Definition full_like (x : list R) (d : depth) : list depth := map (fun _ => d) x.

(** [torch.stack((x, y, z), dim=-1)] *)
Definition stack_points (x y : list R) (z : list depth) : list field_point :=
  zip_with (fun xy z => FieldPoint xy.1 xy.2 z) (zip x y) z.

(** The lens object is a black box with a state of its own: [psf_rgb]
    returns a PSF or raises, and leaves the lens in a new state. *)
Class Lens (L : Type) : Type :=
  psf_rgb : L -> field_point -> nat -> bool -> nat -> result (tensor R) * L.

(** A call of [lens.psf_rgb(points=, ks=, recenter=, spp=)] and its outcome. *)
Record call : Type := Call {
  call_point : field_point;
  call_ks : nat;
  call_recenter : bool;
  call_spp : nat;
  call_result : result (tensor R)
}.

(** What [make_grid] is asked to tile. *)
Record grid : Type := Grid {
  grid_images : list (tensor R);
  grid_nrow : nat;
  grid_padding : nat;
  grid_pad_value : R
}.

(** What [save_image] is asked to write. *)
Record image_file : Type := ImageFile {
  image_grid : grid;
  image_normalize : bool
}.

(** The lens, the trace of the calls made to it, standard output and the
    image files. *)
Record world (L : Type) : Type := World {
  lens : L;
  calls : list call;
  stdout : list string;
  files : gmap string image_file
}.
Arguments World {L} lens calls stdout files.
Arguments lens {L} w.
Arguments calls {L} w.
Arguments stdout {L} w.
Arguments files {L} w.

(** A statement: it changes the world and returns or raises. *)
Definition prog (L A : Type) : Type := world L -> result A * world L.

#[export] Instance prog_ret {L} : MRet (prog L) := fun A a w => (Ok a, w).
#[export] Instance prog_bind {L} : MBind (prog L) := fun A B f m w =>
  match m w with
  | (Ok a, w') => f a w'
  | (Raise e, w') => (Raise e, w')
  end.

(** A computation without effect on the world. *)
Definition lift {L A} (r : result A) : prog L A := fun w => (r, w).

(** [try: body except <class>: handler] *)
Definition try_except {L A} (body : prog L A) (catches : exn -> bool)
    (handler : exn -> prog L A) : prog L A := fun w =>
  match body w with
  | (Ok a, w') => (Ok a, w')
  | (Raise e, w') => if catches e then handler e w' else (Raise e, w')
  end.

(** [for i in <list>: acc = body(i, acc)] *)
Fixpoint for_each {L A} (body : nat -> A -> prog L A) (l : list nat) (acc : A) : prog L A :=
  match l with
  | [] => mret acc
  | i :: l' => acc' ← body i acc; for_each body l' acc'
  end.

Definition print {L} (line : string) : prog L unit := fun w =>
  (Ok (), World (lens w) (calls w) (stdout w ++ [line]) (files w)).

(** [make_grid(psfs, nrow=, padding=, pad_value=)]: it stacks the list. *)
Definition make_grid (psfs : list (tensor R)) (nrow padding : nat) (pad_value : R)
    : result grid :=
  _ ← stack psfs; mret (Grid psfs nrow padding pad_value).

(** The file system, as far as [save_image] depends on it: the exception
    with which writing an image under a given name fails (the directory
    does not exist, the extension names no image format, ...), or [None]
    if the name can be written. *)
Class Disk : Type :=
  save_error : string -> option exn.

(** [save_image(grid, name, normalize=)]: it writes the file, or raises and
    writes nothing. *)
Definition save_image {L} `{Disk} (g : grid) (name : string) (normalize : bool)
    : prog L unit := fun w =>
  match save_error name with
  | Some e => (Raise e, w)
  | None => (Ok (), World (lens w) (calls w) (stdout w)
                          (<[name := ImageFile g normalize]> (files w)))
  end.

Section Plotters.
Context {L : Type} `{Lens L} {disk : Disk}.

(** The constant of [deeplens.optics.basics]. *)
Variable EPSILON : R.

Definition call_psf_rgb (points : field_point) (ks : nat) (recenter : bool) (spp : nat)
    : prog L (tensor R) := fun w =>
  let '(r, l') := psf_rgb (lens w) points ks recenter spp in
  (r, World l' (calls w ++ [Call points ks recenter spp r]) (stdout w) (files w)).

(** [points[i]] *)
Definition index (points : list field_point) (i : nat) : prog L field_point :=
  lift (match points !! i with Some p => Ok p | None => Raise IndexError end).

(** [psf /= psf.max()] *)
Definition normalize_max (psf : tensor R) : result (tensor R) :=
  m ← tmax psf; mret (tmap (fun x => (x / m)%R) psf).

(** The two lines under [if log_scale:]. *)
Definition log_scale_step (psf : tensor R) : result (tensor R) :=
  let psf := tmap (fun x => ln (x + EPSILON)) psf in
  lo ← tmin psf;
  hi ← tmax psf;
  lo' ← tmin psf;
  mret (tmap (fun x => ((x - lo) / (hi - lo'))%R) psf).

(** Both plotters treat a PSF in the same way before it is appended. *)
Definition scale_psf (log_scale : bool) (psf : tensor R) : result (tensor R) :=
  psf ← normalize_max psf;
  if log_scale then log_scale_step psf else mret psf.

(** The tail of both plotters. *)
Definition tile_and_save (psfs : list (tensor R)) (M : nat) (save_name : string)
    : prog L string :=
  psf_grid ← lift (make_grid psfs M 1 0%R);
  _ ← save_image psf_grid save_name true;
  _ ← print ("PSF radial has been saved to " +:+ save_name);
  mret save_name.

(** [fixed_psf_radial(lens, M, depth, ks, log_scale, save_name)] *)
Definition fixed_points (M : nat) (depth : depth) : list field_point :=
  let x := linspace 0 1 M in
  let y := linspace 0 1 M in
  let z := full_like x depth in
  stack_points x y z.

Definition fixed_body (points : list field_point) (ks : nat) (log_scale : bool)
    (i : nat) (psfs : list (tensor R)) : prog L (list (tensor R)) :=
  p ← index points i;
  psf ← call_psf_rgb p ks true 4096;
  psf ← lift (scale_psf log_scale psf);
  mret (psfs ++ [psf]).

Definition fixed_psf_radial (M : nat) (depth : depth) (ks : nat) (log_scale : bool)
    (save_name : string) : prog L string :=
  let points := fixed_points M depth in
  psfs ← for_each (fixed_body points ks log_scale) (seq 0 M) [];
  tile_and_save psfs M save_name.

(** The unnormalised Gaussian spot: element [(r, c)] of the [ks] by [ks]
    grid, around [center = ks // 2]. *)
Definition gaussian_at (ks : nat) (sigma : R) (r c : nat) : R :=
  let center := Z.of_nat (ks / 2) in
  exp (- IZR ((Z.of_nat c - center) ^ 2 + (Z.of_nat r - center) ^ 2)
         / (2 * sigma ^ 2)).

Definition gaussian_spot (ks : nat) (sigma : R) : tensor R :=
  Tensor [ks; ks]
    (flat_map (fun r => map (fun c => gaussian_at ks sigma r c) (seq 0 ks)) (seq 0 ks)).

(** The handler of the inner [except Exception]: lines 41 to 50. *)
Definition placeholder (ks i : nat) : result (tensor R) :=
  let sigma := (2.0 + INR i * 1.5)%R in
  let gaussian := gaussian_spot ks sigma in
  let gaussian := tmap (fun x => (x / tsum gaussian)%R) gaussian in
  stack [gaussian; gaussian; gaussian].

(** The [try] statement of the robust plotter for field point [i]. *)
Definition fetch_psf (p : field_point) (ks i : nat) : prog L (tensor R) :=
  try_except (call_psf_rgb p ks true 4096) is_AssertionError (fun _ =>
    try_except
      (_ ← print ("Trying without recentering for field point " +:+ pretty i);
       call_psf_rgb p ks false 4096)
      (fun _ => true)
      (fun _ =>
         _ ← print ("Creating placeholder Gaussian PSF for field point " +:+ pretty i);
         lift (placeholder ks i))).

(** [robust_psf_radial(lens, M, depth, ks, log_scale, save_name)] *)
Definition robust_points (M : nat) (depth : depth) : list field_point :=
  let x := linspace 0 0.7 M in
  let y := linspace 0 0.7 M in
  let z := full_like x depth in
  stack_points x y z.

Definition robust_body (points : list field_point) (ks : nat) (log_scale : bool)
    (i : nat) (psfs : list (tensor R)) : prog L (list (tensor R)) :=
  p ← index points i;
  psf ← fetch_psf p ks i;
  psf ← lift (scale_psf log_scale psf);
  mret (psfs ++ [psf]).

Definition robust_psf_radial (M : nat) (depth : depth) (ks : nat) (log_scale : bool)
    (save_name : string) : prog L string :=
  let points := robust_points M depth in
  psfs ← for_each (robust_body points ks log_scale) (seq 0 M) [];
  tile_and_save psfs M save_name.

End Plotters.

(** [m] is the greatest, respectively the least, element of [l]. *)
Definition is_max (l : list R) (m : R) : Prop :=
  In m l /\ forall y, In y l -> (y <= m)%R.

Definition is_min (l : list R) (m : R) : Prop :=
  In m l /\ forall y, In y l -> (m <= y)%R.

(** How both plotters turn the PSF [raw] of the lens into the image [out]
    they append: division by its own maximum, then the log-scale step if
    [log_scale] is set. *)
Definition scaled (EPSILON : R) (log_scale : bool) (raw out : tensor R) : Prop :=
  exists m, tmax raw = Ok m /\
    let normalized := tmap (fun x => (x / m)%R) raw in
    if log_scale then log_scale_step EPSILON normalized = Ok out
    else out = normalized.

(** A PSF as the lens returns it for kernel size [ks]: three colour
    channels of [ks] by [ks] values. *)
Definition psf_shaped (ks : nat) (t : tensor R) : Prop :=
  shape t = [3; ks; ks] /\ length (data t) = 3 * (ks * ks).

(** The request both plotters make first for a field point, and its answer. *)
Definition recentered (ks : nat) (p : field_point) (t : tensor R) : call :=
  Call p ks true 4096 (Ok t).

(** A lens whose PSF generation always succeeds. *)
Definition always_succeeds (L : Type) `{Lens L} : Prop :=
  forall l p ks recenter spp,
    exists t l', psf_rgb l p ks recenter spp = (Ok t, l') /\ psf_shaped ks t.

(** The loop invariant of the strict plotter: what holds before the
    iteration for field position [i], in a run started in [w0]. *)
Definition fixed_invariant {L} (EPSILON : R) (points : list field_point) (ks : nat) (log_scale : bool)
    (w0 : world L) (i : nat) (psfs : list (tensor R)) (w : world L) : Prop :=
  exists raws,
    length raws = i /\
    calls w = calls w0 ++ zip_with (recentered ks) (take i points) raws /\
    Forall2 (scaled EPSILON log_scale) raws psfs /\
    Forall (fun t => shape t = [3; ks; ks]) psfs /\
    stdout w = stdout w0 /\ files w = files w0.

(** The placeholder as the specification words it: a [ks] by [ks] spot,
    isotropic Gaussian around the centre [(ks // 2, ks // 2)] with standard
    deviation [2.0 + 1.5 * i], normalised to sum to 1, and the same in all
    three colour channels.  [g] is one channel in row-major order and
    [total] the sum of the unnormalised spot. *)
Definition is_placeholder (ks i : nat) (t : tensor R) : Prop :=
  exists (g : list R) (total : R),
    t = Tensor [3; ks; ks] (g ++ g ++ g) /\
    length g = ks * ks /\
    foldr Rplus 0%R g = 1%R /\
    (0 < total)%R /\
    forall r c, r < ks -> c < ks ->
      g !! (r * ks + c)
      = Some (exp (- IZR ((Z.of_nat c - Z.of_nat (ks / 2)) ^ 2
                          + (Z.of_nat r - Z.of_nat (ks / 2)) ^ 2)
                   / (2 * (2.0 + 1.5 * INR i) ^ 2))
              / total)%R.

(** A lens whose recentered requests fail, if they do, only by the validity
    assertion, and whose PSFs are well shaped. *)
Definition fails_by_validity_only (L : Type) `{Lens L} : Prop :=
  forall l p ks spp,
    (forall t l', psf_rgb l p ks true spp = (Ok t, l') -> psf_shaped ks t) /\
    (forall e l', psf_rgb l p ks true spp = (Raise e, l') -> is_AssertionError e = true) /\
    (forall t l', psf_rgb l p ks false spp = (Ok t, l') -> psf_shaped ks t).

(** The first [n] iterations of the robust plotter's loop. *)
Definition robust_iterations {L} `{Lens L} (EPSILON : R) (M : nat) (d : depth) (ks : nat)
    (log_scale : bool) (n : nat) : prog L (list (tensor R)) :=
  for_each (robust_body EPSILON (robust_points M d) ks log_scale) (seq 0 n) [].

(** Lens stand-ins.  [SteadyLens] answers every request with a uniform
    PSF; [InvalidLens] fails the validity assertion on every request;
    [EdgyLens] fails it only with recentering; [BrokenLens] raises another
    error. *)
Inductive steady_lens : Type := SteadyLens.
Inductive invalid_lens : Type := InvalidLens.
Inductive edgy_lens : Type := EdgyLens.
Inductive broken_lens : Type := BrokenLens.

Definition uniform_psf (ks : nat) : tensor R :=
  Tensor [3; ks; ks] (repeat 1%R (3 * (ks * ks))).

#[export] Instance steady_psf_rgb : Lens steady_lens :=
  fun l _ ks _ _ => (Ok (uniform_psf ks), l).
#[export] Instance invalid_psf_rgb : Lens invalid_lens :=
  fun l _ _ _ _ => (Raise AssertionError, l).
#[export] Instance edgy_psf_rgb : Lens edgy_lens :=
  fun l _ ks recenter _ =>
    (if recenter then Raise AssertionError else Ok (uniform_psf ks), l).
#[export] Instance broken_psf_rgb : Lens broken_lens :=
  fun l _ _ _ _ => (Raise RuntimeError, l).

(** A world in which nothing has happened yet. *)
Definition fresh {L} (l : L) : world L := World l [] [] ∅.

(** File-system stand-ins.  On [roomy_disk] every name can be written; on
    [bare_disk] only names without a directory part can, because no
    directory exists. *)
Definition roomy_disk : Disk := fun _ => None.

Fixpoint has_slash (name : string) : bool :=
  match name with
  | EmptyString => false
  | String c rest => (c =? "/")%char || has_slash rest
  end.

Definition bare_disk : Disk := fun name =>
  if has_slash name then Some FileNotFoundError else None.

(** *** The fallback policy, as the specification words it

    One field point, on a lens in state [l]: the PSF [t] that the policy
    yields, the requests made to the lens with their answers, and the state
    [l'] in which the lens is left. *)
Inductive tier_of {L} `{Lens L} (ks i : nat) (l : L) (p : field_point)
    : tensor R -> list call -> L -> Prop :=
| tier_recentered t l1 :
    psf_rgb l p ks true 4096 = (Ok t, l1) ->
    tier_of ks i l p t [Call p ks true 4096 (Ok t)] l1
| tier_not_recentered e l1 t l2 :
    psf_rgb l p ks true 4096 = (Raise e, l1) ->
    is_AssertionError e = true ->
    psf_rgb l1 p ks false 4096 = (Ok t, l2) ->
    tier_of ks i l p t
      [Call p ks true 4096 (Raise e); Call p ks false 4096 (Ok t)] l2
| tier_placeholder e l1 e' l2 t :
    psf_rgb l p ks true 4096 = (Raise e, l1) ->
    is_AssertionError e = true ->
    psf_rgb l1 p ks false 4096 = (Raise e', l2) ->
    is_placeholder ks i t ->
    tier_of ks i l p t
      [Call p ks true 4096 (Raise e); Call p ks false 4096 (Raise e')] l2.

(** The policy over the field points from position [i] on: the PSFs in
    order, the whole trace of requests, and the final state of the lens. *)
Inductive fallback_run {L} `{Lens L} (ks : nat)
    : nat -> L -> list field_point -> list (tensor R) -> list call -> L -> Prop :=
| run_done i l :
    fallback_run ks i l [] [] [] l
| run_point i l p points t requests l1 ts trace l2 :
    tier_of ks i l p t requests l1 ->
    fallback_run ks (S i) l1 points ts trace l2 ->
    fallback_run ks i l (p :: points) (t :: ts) (requests ++ trace) l2.

End Psf.

(** ** fix_denormalize.py: the constants and [vis_sample] *)

Module VisSample.

Section Dtype.
Context {A : Type} `{Scalar A}.

(** The value that [mean], respectively [std], holds in channel [c] after
    the assignments of [safe_denormalize]. *)
Definition channel_mean (c : nat) : A :=
  match c with
  | 0 => lit 0.485
  | 1 => lit 0.456
  | 2 => lit 0.406
  | _ => zero
  end.

Definition channel_std (c : nat) : A :=
  match c with
  | 0 => lit 0.229
  | 1 => lit 0.224
  | 2 => lit 0.225
  | _ => zero
  end.

(** [t[0]]: the first item along dimension 0. *)
Definition index0 (t : tensor A) : result (tensor A) :=
  match shape t with
  | [] => Raise IndexError
  | b :: rest =>
      if b =? 0 then Raise IndexError
      else Ok (Tensor rest (take (numel rest) (data t)))
  end.

(** [t.permute(1, 2, 0)]: channel-first to channel-last.  Element
    [(h, w, c)] of the result is element [(c, h, w)] of [t]. *)
Definition permute120 (t : tensor A) : result (tensor A) :=
  match shape t with
  | [c; h; w] =>
      Ok (Tensor [h; w; c]
            (map (fun k => nth ((k mod c) * (h * w) + k / c) (data t) zero)
                 (seq 0 (h * w * c))))
  | _ => Raise RuntimeError
  end.

(** What [plt.imshow] and [plt.title] have drawn in one subplot. *)
Record panel : Type := Panel {
  panel_position : nat;
  panel_title : string;
  panel_image : tensor A
}.

(** The figure: the panels drawn so far, the arguments of the [suptitle]
    (epoch as displayed, batch, loss), and whether [plt.show] ran. *)
Record figure (Loss : Type) : Type := Figure {
  panels : list panel;
  suptitle : option (Z * Z * Loss);
  shown : bool
}.
Arguments Figure {Loss} panels suptitle shown.
Arguments panels {Loss} f.
Arguments suptitle {Loss} f.
Arguments shown {Loss} f.

(** The image of one subplot: the first item if the tensor is a batch,
    denormalised and made channel-last. *)
Definition displayed (img : tensor A) : result (tensor A) :=
  img ← (if dim img =? 4 then index0 img else Ok img);
  img ← safe_denormalize img;
  permute120 img.

(** [plt.imshow(img)] checks the array before anything is drawn.  It
    takes a [h, w] array of scalars and a [h, w, c] array of 1, 3 or 4
    channels, and raises [TypeError] on any other shape; the range check
    of a colour image takes its minimum, which raises [ValueError] on an
    image without pixels. *)
Definition imshow (img : tensor A) : result unit :=
  match shape img with
  | [_; _] => Ok ()
  | [h; w; c] =>
      if c =? 1 then Ok ()
      else if (c =? 3) || (c =? 4) then
        if h * w =? 0 then Raise (OtherError "ValueError") else Ok ()
      else Raise (OtherError "TypeError")
  | _ => Raise (OtherError "TypeError")
  end.

(** One of the three blocks of [vis_sample]: the image is prepared, shown
    and titled; nothing is drawn if preparing or showing it raises. *)
Definition draw {Loss} (position : nat) (title : string) (img : tensor A)
    (fig : figure Loss) : result unit * figure Loss :=
  match displayed img with
  | Ok img =>
      match imshow img with
      | Ok _ => (Ok (), Figure (panels fig ++ [Panel position title img])
                               (suptitle fig) (shown fig))
      | Raise e => (Raise e, fig)
      end
  | Raise e => (Raise e, fig)
  end.

(** [vis_sample(img_org, img_render, img_rec, loss, epoch, batch)]: it
    returns nothing; the figure is what it leaves behind. *)
Definition vis_sample {Loss} (img_org img_render img_rec : tensor A)
    (loss : option Loss) (epoch batch : option Z) : result unit * figure Loss :=
  let fig := Figure [] None false in
  match draw 1 "Original" img_org fig with
  | (Raise e, fig) => (Raise e, fig)
  | (Ok _, fig) =>
  match draw 2 "Rendered" img_render fig with
  | (Raise e, fig) => (Raise e, fig)
  | (Ok _, fig) =>
  match draw 3 "Recovered" img_rec fig with
  | (Raise e, fig) => (Raise e, fig)
  | (Ok _, fig) =>
      let fig :=
        match loss, epoch, batch with
        | Some loss, Some epoch, Some batch =>
            Figure (panels fig) (Some ((epoch + 1)%Z, batch, loss)) (shown fig)
        | _, _, _ => fig
        end in
      (Ok (), Figure (panels fig) (suptitle fig) true)
  end end end.

End Dtype.

Arguments panel A : clear implicits.
Arguments figure A Loss : clear implicits.
Arguments Panel {A} panel_position panel_title panel_image.
Arguments panel_position {A} p.
Arguments panel_title {A} p.
Arguments panel_image {A} p.
Arguments Figure {A Loss} panels suptitle shown.
Arguments panels {A Loss} f.
Arguments suptitle {A Loss} f.
Arguments shown {A Loss} f.

(** A channel-first image of [c] channels, [h] rows and [w] columns, alone
    or as a non-empty batch. *)
Definition image_of {A} (t : tensor A) (c h w : nat) : Prop :=
  shape t = [c; h; w] \/ exists b, shape t = [S b; c; h; w].


(** Flat index of element [(c, h, w)] of a channel-first image, and of
    element [(h, w, c)] of a channel-last one. *)
Definition chw (h w : nat) (c i j : nat) : nat := (c * h + i) * w + j.
Definition hwc (w c : nat) (i j k : nat) : nat := (i * w + j) * c + k.

End VisSample.
Import VisSample.

(** ** The plotters: further notions *)

Module PsfExtra.
Import Psf.

(** The first [n] iterations of the strict plotter's loop. *)
Definition fixed_iterations {L} `{Lens L} (EPSILON : R) (M : nat) (d : depth) (ks : nat)
    (log_scale : bool) (n : nat) : prog L (list (tensor R)) :=
  for_each (fixed_body EPSILON (fixed_points M d) ks log_scale) (seq 0 n) [].

(** [c * t], elementwise. *)
Definition brighten (c : R) (t : tensor R) : tensor R := tmap (fun x => (c * x)%R) t.

(** A lens that fails the validity assertion on every request. *)
Definition always_invalid (L : Type) `{Lens L} : Prop :=
  forall l p ks recenter spp,
    exists l', psf_rgb l p ks recenter spp = (Raise AssertionError, l').

(** The requests of the robust plotter for one field point on such a lens. *)
Definition failed_pair (ks : nat) (p : field_point) : list call :=
  [Call p ks true 4096 (Raise AssertionError); Call p ks false 4096 (Raise AssertionError)].

(** Loop invariant of the robust plotter on a lens that is always
    invalid: two failed requests per field point so far, and every image
    so far the scaled placeholder of its position. *)
Definition placeholder_invariant {L} (EPSILON : R) (points : list field_point) (ks : nat)
    (log_scale : bool) (w0 : world L) (i : nat) (psfs : list (tensor R)) (w : world L)
    : Prop :=
  length psfs = i /\
  calls w = calls w0 ++ concat (map (failed_pair ks) (take i points)) /\
  Forall (fun t => shape t = [3; ks; ks]) psfs /\
  (forall j out, psfs !! j = Some out ->
     exists t, placeholder ks j = Ok t /\ scaled EPSILON log_scale t out) /\
  files w = files w0.

(** The flat index of the centre pixel in channel [ch] of a [3, ks, ks] PSF. *)
Definition centre_index (ks ch : nat) : nat := ch * (ks * ks) + ((ks / 2) * ks + ks / 2).

End PsfExtra.

(* ===================================================================== *)
(** * Part II: properties                                                 *)
(* ===================================================================== *)

Module DenormalizeFacts.

Section Dtype.
Context {A : Type} `{Scalar A}.

Lemma set_channel_ok (c : nat) (v : A) (t : tensor A) b ch h w rest :
  shape t = b :: ch :: h :: w :: rest ->
  c < ch ->
  set_channel c v t
  = Ok (Tensor (shape t)
          (imap (fun k x => if channel_index (shape t) k =? c then v else x) (data t))).
Proof.
  intros Hs Hc. unfold set_channel. rewrite Hs.
  destruct (Nat.ltb_spec c ch); [reflexivity | lia].
Qed.

Lemma set_channel_out_of_range (c : nat) (v : A) (t : tensor A) b ch rest :
  shape t = b :: ch :: rest ->
  ch <= c ->
  set_channel c v t = Raise IndexError.
Proof.
  intros Hs Hc. unfold set_channel. rewrite Hs.
  destruct rest as [|h [|w rest]]; try reflexivity.
  destruct (Nat.ltb_spec c ch); [lia | reflexivity].
Qed.

(** The batched computation, for a tensor whose rank is not 3. *)
Lemma safe_denormalize_batched (t : tensor A) b ch h w rest :
  shape t = b :: ch :: h :: w :: rest ->
  3 <= ch ->
  safe_denormalize t
  = Ok (Tensor (shape t)
          (zip_with add (zip_with mul (data t) (std_data (shape t) (data t)))
                    (mean_data (shape t) (data t)))).
Proof.
  intros Hs Hch. unfold safe_denormalize.
  assert (Hd : (dim t =? 3) = false).
  { unfold dim. rewrite Hs. destruct rest; reflexivity. }
  rewrite Hd. unfold zeros_like.
  repeat (erewrite set_channel_ok; [cbn [mbind result_bind shape data] | cbn [shape]; eassumption | lia]).
  unfold pointwise. cbn [shape data].
  rewrite !decide_True by reflexivity. cbn [mbind result_bind shape data].
  rewrite decide_True by reflexivity. reflexivity.
Qed.

(** The unbatched computation is the batched one between [unsqueeze0] and
    [squeeze0]. *)
Lemma safe_denormalize_unbatched (t : tensor A) :
  dim t = 3 ->
  safe_denormalize t = (squeeze0 <$> safe_denormalize (unsqueeze0 t)).
Proof.
  intros Hd. unfold safe_denormalize.
  assert (Hd4 : (dim (unsqueeze0 t) =? 3) = false).
  { unfold dim, unsqueeze0. cbn [shape length]. fold (dim t). rewrite Hd. reflexivity. }
  rewrite Hd4, Hd. cbn [Nat.eqb].
  destruct (set_channel 0 (lit 0.485) (zeros_like (unsqueeze0 t))) as [m0|]; [|reflexivity].
  cbn [mbind result_bind].
  destruct (set_channel 1 (lit 0.456) m0) as [m1|]; [|reflexivity].
  cbn [mbind result_bind].
  destruct (set_channel 2 (lit 0.406) m1) as [m2|]; [|reflexivity].
  cbn [mbind result_bind].
  destruct (set_channel 0 (lit 0.229) (zeros_like (unsqueeze0 t))) as [s0|]; [|reflexivity].
  cbn [mbind result_bind].
  destruct (set_channel 1 (lit 0.224) s0) as [s1|]; [|reflexivity].
  cbn [mbind result_bind].
  destruct (set_channel 2 (lit 0.225) s1) as [s2|]; [|reflexivity].
  cbn [mbind result_bind].
  destruct (pointwise mul (unsqueeze0 t) s2) as [sc|]; [|reflexivity].
  cbn [mbind result_bind].
  destruct (pointwise add sc m2) as [r|]; reflexivity.
Qed.

Lemma mean_data_length (s : list nat) (d : list A) :
  length (mean_data s d) = length d.
Proof. unfold mean_data. by rewrite !length_imap, length_map. Qed.

Lemma std_data_length (s : list nat) (d : list A) :
  length (std_data s d) = length d.
Proof. unfold std_data. by rewrite !length_imap, length_map. Qed.

Lemma denormalized_length (s : list nat) (d : list A) :
  length (zip_with add (zip_with mul d (std_data s d)) (mean_data s d)) = length d.
Proof. rewrite !length_zip_with, std_data_length, mean_data_length. lia. Qed.

(** Beyond channel 2 both [mean] and [std] keep the zeros they were built from. *)
Lemma mean_data_high (s : list nat) (d : list A) (k : nat) :
  k < length d -> 3 <= channel_index s k ->
  mean_data s d !! k = Some zero.
Proof.
  intros Hk Hc. unfold mean_data.
  destruct (lookup_lt_is_Some_2 d k Hk) as [x Hx].
  rewrite !list_lookup_imap, list_lookup_fmap, Hx. cbn.
  destruct (Nat.eqb_spec (channel_index s k) 2); [lia|].
  destruct (Nat.eqb_spec (channel_index s k) 1); [lia|].
  destruct (Nat.eqb_spec (channel_index s k) 0); [lia|]. reflexivity.
Qed.

Lemma std_data_high (s : list nat) (d : list A) (k : nat) :
  k < length d -> 3 <= channel_index s k ->
  std_data s d !! k = Some zero.
Proof.
  intros Hk Hc. unfold std_data.
  destruct (lookup_lt_is_Some_2 d k Hk) as [x Hx].
  rewrite !list_lookup_imap, list_lookup_fmap, Hx. cbn.
  destruct (Nat.eqb_spec (channel_index s k) 2); [lia|].
  destruct (Nat.eqb_spec (channel_index s k) 1); [lia|].
  destruct (Nat.eqb_spec (channel_index s k) 0); [lia|]. reflexivity.
Qed.

Lemma denormalized_high (s : list nat) (d : list A) (k : nat) (x : A) :
  d !! k = Some x -> 3 <= channel_index s k ->
  zip_with add (zip_with mul d (std_data s d)) (mean_data s d) !! k
  = Some (add (mul x zero) zero).
Proof.
  intros Hx Hc. pose proof (lookup_lt_Some _ _ _ Hx) as Hk.
  rewrite !lookup_zip_with, Hx, std_data_high, mean_data_high by assumption.
  reflexivity.
Qed.

End Dtype.

(** A finite double times zero plus zero is (positive) zero. *)
Lemma finite_times_zero (x : float) :
  is_finite x = true -> PrimFloat.add (PrimFloat.mul x 0) 0 = 0%float.
Proof.
  intros Hfin. apply Prim2SF_inj. rewrite add_spec, mul_spec.
  change (Prim2SF 0) with (S754_zero false).
  unfold is_finite, is_nan, is_infinity in Hfin.
  rewrite !FloatAxioms.eqb_spec, abs_spec in Hfin.
  destruct (Prim2SF x) as [[|]|[|]| |[|] m e]; cbn in *; try reflexivity; discriminate.
Qed.

Example denorm_Z :
  safe_denormalize (Tensor [3; 1; 2] [5; 6; 7; 8; 9; 10]%Z)
  = Ok (Tensor [3; 1; 2] [0; 0; 0; 0; 0; 0]%Z).
Proof. reflexivity. Qed.

Example denorm_float_zero :
  safe_denormalize (Tensor [3; 1; 1] [0; 0; 0]%float)
  = Ok (Tensor [3; 1; 1] [lit 0.485; lit 0.456; lit 0.406]).
Proof. vm_compute. reflexivity. Qed.

(** A tensor with fewer than three channels makes an indexed assignment
    raise: the function does not return. *)
Lemma safe_denormalize_few_channels {A} `{Scalar A} (t : tensor A) b ch rest :
  shape t = b :: ch :: rest -> ch < 3 -> dim t <> 3 ->
  safe_denormalize t = Raise IndexError.
Proof.
  intros Hs Hch Hd. unfold safe_denormalize.
  destruct (Nat.eqb_spec (dim t) 3) as [|_]; [done|].
  unfold zeros_like, set_channel. cbn [shape]. rewrite Hs.
  destruct rest as [|h [|w rest]]; try reflexivity.
  destruct ch as [|[|[|ch]]]; try lia; reflexivity.
Qed.

(** C5.  For every image tensor (channel-first, at least the three colour
    channels) of rank 3, [safe_denormalize] returns a tensor of rank 3 of
    the same shape; for every such tensor of rank 4 it returns a tensor of
    rank 4 of the same shape.  The number of elements is kept too. *)
Theorem safe_denormalize_keeps_shape {A} `{Scalar A} (t : tensor A) :
  dim t = 3 \/ dim t = 4 ->
  3 <= channels t ->
  exists r, safe_denormalize t = Ok r /\
            dim r = dim t /\ shape r = shape t /\
            length (data r) = length (data t).
Proof.
  intros Hd Hc. unfold channels in Hc.
  destruct t as [s d]. unfold dim in *. cbn [shape data] in *.
  destruct Hd as [Hd|Hd].
  - destruct s as [|c [|h [|w [|? ?]]]]; try discriminate Hd.
    rewrite safe_denormalize_unbatched by reflexivity.
    erewrite safe_denormalize_batched; [|reflexivity|assumption].
    exists (Tensor [c; h; w]
              (zip_with add (zip_with mul d (std_data [1; c; h; w] d))
                        (mean_data [1; c; h; w] d))).
    split; [reflexivity|].
    cbn [shape data]. rewrite denormalized_length. done.
  - destruct s as [|b [|c [|h [|w [|? ?]]]]]; try discriminate Hd.
    erewrite safe_denormalize_batched; [|reflexivity|assumption].
    eexists. split; [reflexivity|].
    cbn [shape data]. rewrite denormalized_length. done.
Qed.

Lemma safe_denormalize_keeps_shape_witness :
  exists r, safe_denormalize (Tensor [3; 1; 2] [5; 6; 7; 8; 9; 10]%Z) = Ok r /\
            dim r = 3 /\ shape r = [3; 1; 2] /\ length (data r) = 6.
Proof.
  apply (safe_denormalize_keeps_shape (Tensor [3; 1; 2] [5; 6; 7; 8; 9; 10]%Z)).
  - left. reflexivity.
  - cbn. lia.
Defined.

(** C7.  For every rank-3 tensor [t], [safe_denormalize t] is the result of
    [safe_denormalize] on [t] with a batch dimension of size 1 added, with
    that dimension removed again (and it raises exactly when that does). *)
Theorem safe_denormalize_batch_of_one {A} `{Scalar A} (t : tensor A) :
  dim t = 3 ->
  safe_denormalize t = (squeeze0 <$> safe_denormalize (unsqueeze0 t)).
Proof. apply safe_denormalize_unbatched. Qed.

Lemma safe_denormalize_batch_of_one_witness :
  safe_denormalize (Tensor [3; 1; 1] [0.5; 0.25; 2]%float)
  = (squeeze0 <$> safe_denormalize (Tensor [1; 3; 1; 1] [0.5; 0.25; 2]%float)).
Proof.
  apply (safe_denormalize_batch_of_one (Tensor [3; 1; 1] [0.5; 0.25; 2]%float)).
  reflexivity.
Defined.

(** C10, as stated, fails on binary64 tensors: an infinite entry in
    channel 3 is multiplied by the zero of [std] and comes out as NaN. *)
Lemma extra_channels_not_always_zero :
  ~ (forall t : tensor float,
       dim t = 4 -> 3 < channels t ->
       exists r, safe_denormalize t = Ok r /\
                 forall k x, data r !! k = Some x ->
                             3 <= channel_index (shape t) k -> x = zero).
Proof.
  intros Hall.
  destruct (Hall (Tensor [1; 4; 1; 1] [1; 1; 1; infinity]%float)) as (r & Hr & Hz);
    [reflexivity | cbn; lia |].
  vm_compute in Hr. injection Hr as <-.
  specialize (Hz 3 nan eq_refl). cbn in Hz.
  assert (E : is_nan nan = is_nan zero) by (f_equal; apply Hz; lia).
  vm_compute in E. discriminate E.
Qed.

(** C10, amended.  For every rank-4 tensor with more than three channels,
    [safe_denormalize] returns a tensor of the same shape in which every
    element of a channel of index 3 or more is [x * 0 + 0], for [x] the
    input element at that place: [mean] and [std] are built from zeros and
    only channels 0, 1 and 2 are assigned.  So that element is zero
    wherever the input element [x] satisfies [x * 0 + 0 = 0] (every
    integer, real and finite float does), whatever the other elements
    are. *)
Theorem extra_channels_zero {A} `{Scalar A} (t : tensor A) :
  dim t = 4 ->
  3 < channels t ->
  exists r, safe_denormalize t = Ok r /\
            shape r = shape t /\
            forall k x, data t !! k = Some x -> 3 <= channel_index (shape t) k ->
                        data r !! k = Some (add (mul x zero) zero) /\
                        (add (mul x zero) zero = zero -> data r !! k = Some zero).
Proof.
  intros Hd Hc. unfold channels in Hc.
  destruct t as [s d]. unfold dim in *. cbn [shape data] in *.
  destruct s as [|b [|c [|h [|w [|? ?]]]]]; try discriminate Hd.
  erewrite safe_denormalize_batched; [|reflexivity|lia].
  eexists. split; [reflexivity|]. split; [reflexivity|].
  cbn [shape data]. intros k x Hx Hch.
  rewrite (denormalized_high _ _ _ x Hx Hch). split; [done|].
  by intros ->.
Qed.

(** An image of two pixels with four channels: the last channel holds 5
    and an infinity.  The 5 comes out as 0, whatever the infinity does. *)
Lemma extra_channels_zero_witness :
  exists r,
    safe_denormalize (Tensor [1; 4; 1; 2] [1; 1; 1; 1; 1; 1; 5; infinity]%float) = Ok r /\
    shape r = [1; 4; 1; 2] /\
    data r !! 6 = Some 0%float.
Proof.
  destruct (extra_channels_zero (Tensor [1; 4; 1; 2] [1; 1; 1; 1; 1; 1; 5; infinity]%float))
    as (r & Hr & Hs & Hz).
  - reflexivity.
  - cbn. lia.
  - exists r. split; [exact Hr|]. split; [exact Hs|].
    destruct (Hz 6 5%float) as [_ Hzero].
    + reflexivity.
    + cbn. lia.
    + apply Hzero. apply finite_times_zero. reflexivity.
Defined.

End DenormalizeFacts.

Module NotebookFacts.

Example replace_once :
  str_replace "denormalize_ImageNet" "safe_denormalize" "a = denormalize_ImageNet(b)"
  = "a = safe_denormalize(b)".
Proof. reflexivity. Qed.

Example replace_twice :
  str_replace "ab" "x" "ababcab" = "xxcx".
Proof. reflexivity. Qed.

Example rewrite_path :
  rewrite_line "    DIV2K_PATH = './data'" = "    DIV2K_PATH = '/nas1/DIV2K'  # Updated path" +:+ LF.
Proof. reflexivity. Qed.

(** *** Strings *)

Lemma prefix_spec (pat s : string) :
  String.prefix pat s = true <-> exists b, s = pat +:+ b.
Proof.
  revert s. induction pat as [|c pat IH]; intros s.
  - split; [intros _; by exists s | by destruct s].
  - destruct s as [|d s]; [split; [done | intros [b Hb]; discriminate]|].
    cbn [String.prefix String.append].
    destruct (Ascii.ascii_dec c d) as [->|Hne].
    + rewrite IH. split; intros [b Hb]; exists b; [by rewrite Hb | by injection Hb].
    + split; [done | intros [b Hb]; by injection Hb].
Qed.

(** [str_in] is the substring test. *)
Lemma str_in_spec (pat s : string) :
  str_in pat s = true <-> exists a b, s = a +:+ pat +:+ b.
Proof.
  induction s as [|c s IH]; cbn [str_in].
  - rewrite orb_false_r, prefix_spec. split.
    + intros [b Hb]. by exists EmptyString, b.
    + intros ([|? a] & b & Hab); [by exists b | discriminate].
  - rewrite orb_true_iff, prefix_spec, IH. split.
    + intros [[b Hb] | (a & b & Hab)].
      * by exists EmptyString, b.
      * exists (String c a), b. cbn. by rewrite Hab.
    + intros ([|d a] & b & Hab).
      * left. by exists b.
      * right. exists a, b. cbn in Hab. by injection Hab.
Qed.

(** A line without the old name is left as it is by [str_replace]. *)
Lemma replace_absent (old new s : string) :
  str_in old s = false -> str_replace old new s = s.
Proof.
  unfold str_replace. induction s as [|c s IH]; [done|].
  cbn [str_in replace_from]. intros [Hp Hs]%orb_false_iff.
  rewrite Hp, IH by done. done.
Qed.

(** *** The three rules of the line rewrite *)

Lemma rewrite_line_path (line : string) :
  str_in "DIV2K_PATH" line = true -> str_in "/nas1/DIV2K" line = false ->
  rewrite_line line = "    DIV2K_PATH = '/nas1/DIV2K'  # Updated path" +:+ LF.
Proof. intros H1 H2. unfold rewrite_line. by rewrite H1, H2. Qed.

Lemma rewrite_line_name (line : string) :
  str_in "DIV2K_PATH" line = false \/ str_in "/nas1/DIV2K" line = true ->
  str_in "denormalize_ImageNet" line = true ->
  rewrite_line line = str_replace "denormalize_ImageNet" "safe_denormalize" line.
Proof.
  intros H1 H2. unfold rewrite_line. rewrite H2.
  destruct H1 as [-> | ->]; [done | by rewrite andb_false_r].
Qed.

Lemma rewrite_line_other (line : string) :
  str_in "DIV2K_PATH" line = false \/ str_in "/nas1/DIV2K" line = true ->
  str_in "denormalize_ImageNet" line = false ->
  rewrite_line line = line.
Proof.
  intros H1 H2. unfold rewrite_line. rewrite H2.
  destruct H1 as [-> | ->]; [done | by rewrite andb_false_r].
Qed.

(** *** The loop over the cells *)

(** One iteration patches the object at the reference it visits. *)
Lemma visit_step (seen : list cell) (c : cell) (rest : list cell) (m : list nat) :
  visit (seen ++ c :: rest, m) (length seen)
  = (seen ++ patch_cell c :: rest, m ++ [length seen]).
Proof.
  unfold visit, patch_cell.
  rewrite (list_lookup_middle seen rest c (length seen) eq_refl).
  destruct (is_train_cell c); [|done].
  rewrite <- (Nat.add_0_r (length seen)) at 1. by rewrite insert_app_r.
Qed.

(** After the loop every cell object holds its patched value, whatever
    list still refers to it; the objects allocated after the cells are
    not touched. *)
Lemma visit_loop (seen todo extras : list cell) (m : list nat) :
  (foldl visit (seen ++ todo ++ extras, m) (seq (length seen) (length todo))).1
  = seen ++ map patch_cell todo ++ extras.
Proof.
  revert seen m. induction todo as [|c todo IH]; intros seen m; [done|].
  change ((c :: todo) ++ extras) with (c :: (todo ++ extras)).
  cbn [length seq foldl map app]. rewrite visit_step.
  replace (S (length seen)) with (length (seen ++ [patch_cell c]))
    by (rewrite length_app; cbn; lia).
  rewrite (cons_middle (patch_cell c) seen (todo ++ extras)), (assoc_L (++) seen).
  rewrite IH. by rewrite <- (assoc_L (++)).
Qed.

(** Dumping a run of consecutive references gives the objects there. *)
Lemma dump_run (pre l post : list cell) :
  omap (fun r => (pre ++ l ++ post) !! r) (seq (length pre) (length l)) = l.
Proof.
  revert pre. induction l as [|c l IH]; intros pre; [done|].
  change ((c :: l) ++ post) with (c :: (l ++ post)).
  cbn [length seq omap list_omap].
  rewrite (list_lookup_middle pre (l ++ post) c (length pre) eq_refl).
  f_equal.
  replace (S (length pre)) with (length (pre ++ [c])) by (rewrite length_app; cbn; lia).
  rewrite <- (IH (pre ++ [c])) at 2. by rewrite <- (assoc_L (++)).
Qed.

Lemma paths_differ : NOTEBOOK_PATH <> backup_path.
Proof. intros E. apply (f_equal String.length) in E. vm_compute in E. discriminate E. Qed.

(** The heap after the loop, started on the loaded cells followed by the
    two new cell objects. *)
Lemma loop_result (cs : list cell) :
  (foldl visit ((cs ++ [import_cell]) ++ [dataset_path_cell], []) (seq 0 (length cs))).1
  = map patch_cell cs ++ [import_cell; dataset_path_cell].
Proof.
  rewrite <- (assoc_L (++)).
  exact (visit_loop [] cs [import_cell; dataset_path_cell] []).
Qed.

(** The backup is the loaded document. *)
Lemma dump_loaded (cs : list cell) (other : list (string * string)) :
  dump cs (seq 0 (length cs)) other = Document cs other.
Proof.
  unfold dump. f_equal.
  pose proof (dump_run [] cs []) as D. cbn [app length] in D.
  by rewrite app_nil_r in D.
Qed.

(** The reassembled list of references denotes the patched first cell, the
    two new cells, and the patched other cells. *)
Lemma dump_reassembled (c0 : cell) (rest : list cell) (other : list (string * string)) :
  dump (map patch_cell (c0 :: rest) ++ [import_cell; dataset_path_cell])
       ([0] ++ [length (c0 :: rest); length ((c0 :: rest) ++ [import_cell])]
            ++ seq 1 (length rest))
       other
  = Document (patch_cell c0 :: import_cell :: dataset_path_cell :: map patch_cell rest) other.
Proof.
  unfold dump. f_equal.
  set (h := map patch_cell (c0 :: rest) ++ [import_cell; dataset_path_cell]).
  assert (H0 : h !! 0 = Some (patch_cell c0)) by reflexivity.
  assert (H1 : h !! length (c0 :: rest) = Some import_cell).
  { apply list_lookup_middle. by rewrite length_map. }
  assert (H2 : h !! length ((c0 :: rest) ++ [import_cell]) = Some dataset_path_cell).
  { unfold h.
    replace (map patch_cell (c0 :: rest) ++ [import_cell; dataset_path_cell])
      with ((map patch_cell (c0 :: rest) ++ [import_cell]) ++ [dataset_path_cell])
      by (by rewrite <- (assoc_L (++))).
    apply list_lookup_middle. by rewrite !length_app, length_map. }
  assert (H3 : omap (fun r => h !! r) (seq 1 (length rest)) = map patch_cell rest).
  { pose proof (dump_run [patch_cell c0] (map patch_cell rest)
                  [import_cell; dataset_path_cell]) as D.
    rewrite length_map in D. exact D. }
  set (a := length (c0 :: rest)) in *.
  set (b := length ((c0 :: rest) ++ [import_cell])) in *.
  cbn [app omap list_omap]. by rewrite H0, H1, H2, H3.
Qed.

(** What a run on a notebook with a first cell does to the files. *)
Lemma fix_notebook_files (w : world) (doc : document) (c0 : cell) (rest : list cell) :
  files w !! NOTEBOOK_PATH = Some doc ->
  doc_cells doc = c0 :: rest ->
  (fix_notebook w).1 = Ok () /\
  files (fix_notebook w).2
  = <[NOTEBOOK_PATH :=
        Document (patch_cell c0 :: import_cell :: dataset_path_cell :: map patch_cell rest)
                 (doc_other doc)]>
      (<[backup_path := doc]> (files w)).
Proof.
  intros Hf Hc. unfold fix_notebook. rewrite Hf.
  destruct doc as [cs other]. cbn [doc_cells doc_other] in *. subst cs.
  pose proof (loop_result (c0 :: rest)) as Hloop.
  destruct (foldl visit _ _) as [h m]. cbn [fst] in Hloop. subst h.
  rewrite !dump_loaded.
  change (seq 0 (length (c0 :: rest))) with (0 :: seq 1 (length rest)).
  cbn [fst snd files print write_file].
  by rewrite dump_reassembled.
Qed.

(** A run on a notebook without cells writes the backup and then raises
    on [notebook['cells'][0]]: the notebook file is not rewritten. *)
Lemma fix_notebook_no_cells (w : world) (doc : document) :
  files w !! NOTEBOOK_PATH = Some doc ->
  doc_cells doc = [] ->
  (fix_notebook w).1 = Raise IndexError /\
  files (fix_notebook w).2 = <[backup_path := doc]> (files w).
Proof.
  intros Hf Hc. unfold fix_notebook. rewrite Hf.
  destruct doc as [cs other]. cbn [doc_cells doc_other] in *. subst cs.
  done.
Qed.

Lemma patch_train_cell (c : cell) :
  cell_type c = "code" ->
  str_in "def end2end_train" (join (source c)) = true ->
  patch_cell c = set_source (map rewrite_line (source c)) c.
Proof.
  intros Ht Hd. unfold patch_cell, is_train_cell. by rewrite Ht, Hd.
Qed.

Lemma patch_other_cell (c : cell) :
  is_train_cell c = false -> patch_cell c = c.
Proof. intros Hc. unfold patch_cell. by rewrite Hc. Qed.

(** Position [new_position i] of the output holds the patched cell [i]. *)
Lemma reassembled_lookup (c0 : cell) (rest : list cell) (i : nat) (c : cell) :
  (c0 :: rest) !! i = Some c ->
  (patch_cell c0 :: import_cell :: dataset_path_cell :: map patch_cell rest)
    !! new_position i = Some (patch_cell c).
Proof.
  destruct i as [|k]; cbn [new_position].
  - intros [= ->]. done.
  - intros Hk. change (rest !! k = Some c) in Hk.
    replace (S k + 2) with (S (S (S k))) by lia.
    cbn [lookup list_lookup]. change (map patch_cell rest !! k = Some (patch_cell c)).
    by rewrite list_lookup_fmap, Hk.
Qed.

(** C2, as stated, fails: when the first cell is itself a training cell,
    the loop rewrites that very object, and position 0 of the output holds
    the rewritten cell. *)
Lemma first_cell_not_always_unchanged :
  ~ (forall (w : world) (doc : document),
       files w !! NOTEBOOK_PATH = Some doc ->
       files (fix_notebook w).2 !! backup_path = Some doc /\
       exists doc', files (fix_notebook w).2 !! NOTEBOOK_PATH = Some doc' /\
                    length (doc_cells doc') = length (doc_cells doc) + 2 /\
                    doc_cells doc' !! 0 = doc_cells doc !! 0).
Proof.
  intros Hall.
  assert (Hf : files (world_of [train_cell]) !! NOTEBOOK_PATH
               = Some (Document [train_cell] [("nbformat", "4")]))
    by apply lookup_singleton_eq.
  destruct (Hall _ _ Hf) as (_ & doc' & Hdoc' & _ & H0).
  destruct (fix_notebook_files _ _ train_cell [] Hf eq_refl) as [_ Hfiles].
  rewrite Hfiles, lookup_insert_eq in Hdoc'. injection Hdoc' as <-.
  vm_compute in H0. discriminate H0.
Qed.

(** C2, amended.  For every notebook document with at least one cell, the
    run succeeds, the backup file holds the document as it was loaded, and
    the notebook file holds a document with exactly two more cells, whose
    cell at position 0 is the first cell of the original after the loop's
    rewrite: the original first cell itself whenever that cell is not a
    code cell holding the training function. *)
Theorem backup_and_two_more_cells (w : world) (doc : document) (c0 : cell) (rest : list cell) :
  files w !! NOTEBOOK_PATH = Some doc ->
  doc_cells doc = c0 :: rest ->
  (fix_notebook w).1 = Ok () /\
  files (fix_notebook w).2 !! backup_path = Some doc /\
  exists doc', files (fix_notebook w).2 !! NOTEBOOK_PATH = Some doc' /\
               length (doc_cells doc') = length (doc_cells doc) + 2 /\
               doc_cells doc' !! 0 = Some (patch_cell c0) /\
               (is_train_cell c0 = false -> doc_cells doc' !! 0 = Some c0).
Proof.
  intros Hf Hc.
  destruct (fix_notebook_files w doc c0 rest Hf Hc) as [Hok Hfiles].
  split; [done|]. rewrite Hfiles. split.
  - rewrite lookup_insert_ne by apply paths_differ. apply lookup_insert_eq.
  - eexists. split; [apply lookup_insert_eq|].
    cbn [doc_cells]. rewrite Hc. cbn [length]. rewrite length_map.
    split; [lia|]. split; [done|].
    intros Hn. by rewrite patch_other_cell.
Qed.

Lemma backup_and_two_more_cells_witness :
  (fix_notebook (world_of [title_cell; train_cell])).1 = Ok () /\
  files (fix_notebook (world_of [title_cell; train_cell])).2 !! backup_path
  = Some (Document [title_cell; train_cell] [("nbformat", "4")]) /\
  exists doc', files (fix_notebook (world_of [title_cell; train_cell])).2 !! NOTEBOOK_PATH
               = Some doc' /\
               length (doc_cells doc') = 2 + 2 /\
               doc_cells doc' !! 0 = Some (patch_cell title_cell) /\
               (is_train_cell title_cell = false -> doc_cells doc' !! 0 = Some title_cell).
Proof.
  apply (backup_and_two_more_cells (world_of [title_cell; train_cell])
           (Document [title_cell; train_cell] [("nbformat", "4")])
           title_cell [train_cell]).
  - apply lookup_singleton_eq.
  - reflexivity.
Defined.

(** C4, as stated, fails: a markdown cell whose text holds the definition
    of the training function is not rewritten. *)
Lemma markdown_cell_not_rewritten :
  ~ (forall (w : world) (doc : document) (i : nat) (c : cell),
       files w !! NOTEBOOK_PATH = Some doc ->
       doc_cells doc !! i = Some c ->
       str_in "def end2end_train" (join (source c)) = true ->
       exists doc' c', files (fix_notebook w).2 !! NOTEBOOK_PATH = Some doc' /\
                       doc_cells doc' !! new_position i = Some c' /\
                       source c' = map rewrite_line (source c)).
Proof.
  intros Hall.
  assert (Hf : files (world_of [title_cell; notes_cell]) !! NOTEBOOK_PATH
               = Some (Document [title_cell; notes_cell] [("nbformat", "4")]))
    by apply lookup_singleton_eq.
  destruct (Hall _ _ 1 notes_cell Hf eq_refl eq_refl) as (doc' & c' & Hdoc' & Hc' & Hsrc).
  destruct (fix_notebook_files _ _ title_cell [notes_cell] Hf eq_refl) as [_ Hfiles].
  rewrite Hfiles, lookup_insert_eq in Hdoc'. injection Hdoc' as <-.
  change (Some notes_cell = Some c') in Hc'. injection Hc' as <-.
  vm_compute in Hsrc. discriminate Hsrc.
Qed.

(** C4, amended.  For every code cell of the input notebook whose
    concatenated source contains the definition of the training function,
    the output holds, at the cell's new position, the same cell with its
    source rewritten line by line: a line that refers to the dataset-path
    variable and does not contain the new literal path becomes the
    assignment of the new path; any other line that refers to the old
    denormalisation function has that name replaced by the new helper's
    name; every remaining line is kept as it is. *)
Theorem train_cell_rewritten (w : world) (doc : document) (i : nat) (c : cell) :
  files w !! NOTEBOOK_PATH = Some doc ->
  doc_cells doc !! i = Some c ->
  cell_type c = "code" ->
  str_in "def end2end_train" (join (source c)) = true ->
  exists doc' c',
    files (fix_notebook w).2 !! NOTEBOOK_PATH = Some doc' /\
    doc_cells doc' !! new_position i = Some c' /\
    cell_type c' = cell_type c /\ cell_other c' = cell_other c /\
    length (source c') = length (source c) /\
    forall j line, source c !! j = Some line ->
      exists line', source c' !! j = Some line' /\
        (needs_new_path line ->
           line' = "    DIV2K_PATH = '/nas1/DIV2K'  # Updated path" +:+ LF) /\
        (~ needs_new_path line -> names_old_helper line ->
           line' = str_replace "denormalize_ImageNet" "safe_denormalize" line) /\
        (~ needs_new_path line -> ~ names_old_helper line -> line' = line).
Proof.
  intros Hf Hi Ht Hd.
  destruct (doc_cells doc) as [|c0 rest] eqn:Hc; [done|].
  destruct (fix_notebook_files w doc c0 rest Hf Hc) as [_ Hfiles].
  exists (Document (patch_cell c0 :: import_cell :: dataset_path_cell :: map patch_cell rest)
            (doc_other doc)), (patch_cell c).
  split; [rewrite Hfiles; apply lookup_insert_eq|].
  split; [by apply reassembled_lookup|].
  rewrite (patch_train_cell c Ht Hd). cbn [set_source cell_type cell_other source].
  split; [done|]. split; [done|]. split; [by rewrite length_map|].
  intros j line Hj. exists (rewrite_line line).
  split; [by rewrite list_lookup_fmap, Hj|].
  unfold needs_new_path, names_old_helper.
  split; [intros [H1 H2]; by apply rewrite_line_path|].
  assert (Hcases : forall b1 b2 : bool, ~ (b1 = true /\ b2 = false) -> b1 = false \/ b2 = true)
    by (intros [] []; tauto).
  split.
  - intros Hn Ho. apply rewrite_line_name; [by apply Hcases | done].
  - intros Hn Ho. apply rewrite_line_other; [by apply Hcases|].
    by destruct (str_in "denormalize_ImageNet" line).
Qed.

Lemma train_cell_rewritten_witness :
  exists doc' c',
    files (fix_notebook (world_of [title_cell; train_cell])).2 !! NOTEBOOK_PATH = Some doc' /\
    doc_cells doc' !! 3 = Some c' /\
    cell_type c' = "code" /\ cell_other c' = cell_other train_cell /\
    length (source c') = 4 /\
    forall j line, source train_cell !! j = Some line ->
      exists line', source c' !! j = Some line' /\
        (needs_new_path line ->
           line' = "    DIV2K_PATH = '/nas1/DIV2K'  # Updated path" +:+ LF) /\
        (~ needs_new_path line -> names_old_helper line ->
           line' = str_replace "denormalize_ImageNet" "safe_denormalize" line) /\
        (~ needs_new_path line -> ~ names_old_helper line -> line' = line).
Proof.
  apply (train_cell_rewritten (world_of [title_cell; train_cell])
           (Document [title_cell; train_cell] [("nbformat", "4")]) 1 train_cell).
  - apply lookup_singleton_eq.
  - reflexivity.
  - reflexivity.
  - reflexivity.
Defined.

(** The rewritten sample cell, computed. *)
Example train_cell_patched :
  source (patch_cell train_cell)
  = [ "def end2end_train(lens, net):" +:+ LF;
      "    DIV2K_PATH = '/nas1/DIV2K'  # Updated path" +:+ LF;
      "    img = safe_denormalize(img_org)" +:+ LF;
      "    return img" ].
Proof. reflexivity. Qed.

End NotebookFacts.

Module PsfFacts.
Import Psf.

(** *** Maximum and minimum of a tensor *)

Lemma foldl_Rmax_is_max (l : list R) (x : R) : is_max (x :: l) (foldl Rmax x l).
Proof.
  revert x. induction l as [|y l IH]; intros x; cbn [foldl].
  - split; [by left | intros z [<-|[]]; lra].
  - destruct (IH (Rmax x y)) as [Hin Hub]. split.
    + destruct Hin as [Heq|Hin]; [|by right; right].
      rewrite <- Heq. apply Rmax_case; [by left | by right; left].
    + intros z [<-|[<-|Hz]].
      * etransitivity; [apply (Rmax_l x y) | apply Hub; by left].
      * etransitivity; [apply (Rmax_r x y) | apply Hub; by left].
      * apply Hub. by right.
Qed.

Lemma foldl_Rmin_is_min (l : list R) (x : R) : is_min (x :: l) (foldl Rmin x l).
Proof.
  revert x. induction l as [|y l IH]; intros x; cbn [foldl].
  - split; [by left | intros z [<-|[]]; lra].
  - destruct (IH (Rmin x y)) as [Hin Hlb]. split.
    + destruct Hin as [Heq|Hin]; [|by right; right].
      rewrite <- Heq. apply Rmin_case; [by left | by right; left].
    + intros z [<-|[<-|Hz]].
      * etransitivity; [apply Hlb; by left | apply (Rmin_l x y)].
      * etransitivity; [apply Hlb; by left | apply (Rmin_r x y)].
      * apply Hlb. by right.
Qed.

Lemma is_max_unique (l : list R) (m m' : R) : is_max l m -> is_max l m' -> m = m'.
Proof. intros [Hi Hu] [Hi' Hu']. apply Rle_antisym; auto. Qed.

Lemma is_min_unique (l : list R) (m m' : R) : is_min l m -> is_min l m' -> m = m'.
Proof. intros [Hi Hu] [Hi' Hu']. apply Rle_antisym; auto. Qed.

(** [t.max()] returns the greatest element, and [t.min()] the least. *)
Lemma tmax_spec (t : tensor R) (m : R) : tmax t = Ok m <-> is_max (data t) m.
Proof.
  unfold tmax. destruct (data t) as [|x l].
  - split; [done | intros [[] _]].
  - pose proof (foldl_Rmax_is_max l x) as Hm. split.
    + by intros [= <-].
    + intros Hm'. f_equal. by apply (is_max_unique (x :: l)).
Qed.

Lemma tmin_spec (t : tensor R) (m : R) : tmin t = Ok m <-> is_min (data t) m.
Proof.
  unfold tmin. destruct (data t) as [|x l].
  - split; [done | intros [[] _]].
  - pose proof (foldl_Rmin_is_min l x) as Hm. split.
    + by intros [= <-].
    + intros Hm'. f_equal. by apply (is_min_unique (x :: l)).
Qed.

(** An increasing map carries the extrema along. *)
Lemma is_max_map (f : R -> R) (l : list R) (m : R) :
  (forall x, In x l -> (x <= m)%R -> (f x <= f m)%R) ->
  is_max l m -> is_max (map f l) (f m).
Proof.
  intros Hf [Hi Hu]. split; [by apply in_map|].
  intros y (x & <- & Hx)%in_map_iff. auto.
Qed.

Lemma is_min_map (f : R -> R) (l : list R) (m : R) :
  (forall x, In x l -> (m <= x)%R -> (f m <= f x)%R) ->
  is_min l m -> is_min (map f l) (f m).
Proof.
  intros Hf [Hi Hu]. split; [by apply in_map|].
  intros y (x & <- & Hx)%in_map_iff. auto.
Qed.

(** *** Statements *)

Section Programs.
Context {L : Type}.

Lemma bind_ok {A B} (m : prog L A) (f : A -> prog L B) (w w' : world L) (a : A) :
  m w = (Ok a, w') -> (m ≫= f) w = f a w'.
Proof. intros Hm. unfold mbind, prog_bind. by rewrite Hm. Qed.

Lemma bind_raise {A B} (m : prog L A) (f : A -> prog L B) (w w' : world L) (e : exn) :
  m w = (Raise e, w') -> (m ≫= f) w = (Raise e, w').
Proof. intros Hm. unfold mbind, prog_bind. by rewrite Hm. Qed.

(** The loop stops at the first iteration that raises. *)
Lemma for_each_raise {A} (body : nat -> A -> prog L A) (i : nat) (l : list nat)
    (acc : A) (w w' : world L) (e : exn) :
  body i acc w = (Raise e, w') ->
  for_each body (i :: l) acc w = (Raise e, w').
Proof. intros Hb. cbn [for_each]. by apply bind_raise. Qed.

Lemma for_each_app {A} (body : nat -> A -> prog L A) (l1 l2 : list nat)
    (acc acc1 : A) (w w1 : world L) :
  for_each body l1 acc w = (Ok acc1, w1) ->
  for_each body (l1 ++ l2) acc w = for_each body l2 acc1 w1.
Proof.
  revert acc w. induction l1 as [|i l1 IH]; intros acc w; cbn [for_each app].
  - by intros [= -> ->].
  - unfold mbind, prog_bind. destruct (body i acc w) as [[acc'|e] w'']; [apply IH | done].
Qed.

(** The loop rule: an invariant [I], indexed by the next field position,
    that every iteration keeps holds at the end, and the loop returns. *)
Lemma for_each_invariant {A} (I : nat -> A -> world L -> Prop)
    (body : nat -> A -> prog L A) (n : nat) :
  (forall i acc w, i < n -> I i acc w ->
     exists acc' w', body i acc w = (Ok acc', w') /\ I (S i) acc' w') ->
  forall acc w, I 0 acc w ->
    exists acc' w', for_each body (seq 0 n) acc w = (Ok acc', w') /\ I n acc' w'.
Proof.
  intros Hstep.
  assert (Hgen : forall k a acc w, a + k = n -> I a acc w ->
            exists acc' w', for_each body (seq a k) acc w = (Ok acc', w') /\ I n acc' w').
  { induction k as [|k IH]; intros a acc w Hak HI.
    - exists acc, w. replace n with a by lia. done.
    - destruct (Hstep a acc w) as (acc1 & w1 & Hb & HI1); [lia | done |].
      destruct (IH (S a) acc1 w1) as (acc' & w' & Hl & HI'); [lia | done |].
      exists acc', w'. split; [|done].
      cbn [seq for_each]. by rewrite (bind_ok _ _ _ _ _ Hb). }
  intros acc w. by apply Hgen.
Qed.

End Programs.

(** *** Scaling, stacking and saving *)

Lemma shaped_nonempty (ks : nat) (t : tensor R) :
  0 < ks -> psf_shaped ks t -> data t <> [].
Proof.
  intros Hks [_ Hlen] Hnil. rewrite Hnil in Hlen. cbn [length] in Hlen. nia.
Qed.

Lemma tmax_nonempty (t : tensor R) : data t <> [] -> exists m, tmax t = Ok m.
Proof. unfold tmax. destruct (data t); [done | eauto]. Qed.

Lemma tmin_nonempty (t : tensor R) : data t <> [] -> exists m, tmin t = Ok m.
Proof. unfold tmin. destruct (data t); [done | eauto]. Qed.

Lemma tmap_nonempty (f : R -> R) (t : tensor R) : data t <> [] -> data (tmap f t) <> [].
Proof. unfold tmap. cbn. by destruct (data t). Qed.

(** On a tensor with elements [scale_psf] returns, and keeps the shape. *)
Lemma scale_psf_ok (EPSILON : R) (log_scale : bool) (t : tensor R) :
  data t <> [] ->
  exists out, scale_psf EPSILON log_scale t = Ok out /\
              scaled EPSILON log_scale t out /\
              shape out = shape t /\ length (data out) = length (data t).
Proof.
  intros Hne. destruct (tmax_nonempty t Hne) as [m Hm].
  set (n := tmap (fun x => (x / m)%R) t).
  assert (Hrun : scale_psf EPSILON log_scale t
                 = if log_scale then log_scale_step EPSILON n else Ok n).
  { unfold scale_psf, normalize_max. rewrite Hm. reflexivity. }
  rewrite Hrun. destruct log_scale.
  - set (g := tmap (fun x => ln (x + EPSILON)) n).
    assert (Hg : data g <> []) by by do 2 apply tmap_nonempty.
    destruct (tmin_nonempty g Hg) as [lo Hlo].
    destruct (tmax_nonempty g Hg) as [hi Hhi].
    assert (Hstep : log_scale_step EPSILON n
                    = Ok (tmap (fun x => ((x - lo) / (hi - lo))%R) g)).
    { unfold log_scale_step. fold g. by rewrite Hlo, Hhi. }
    eexists. split; [exact Hstep|]. split; [by exists m|].
    split; [done|]. cbn. by rewrite !length_map.
  - exists n. split; [done|]. split; [by exists m|].
    split; [done|]. cbn. by rewrite length_map.
Qed.

Lemma make_grid_ok (psfs : list (tensor R)) (s : list nat) (nrow padding : nat) (v : R) :
  psfs <> [] -> Forall (fun t => shape t = s) psfs ->
  make_grid psfs nrow padding v = Ok (Grid psfs nrow padding v).
Proof.
  intros Hne Hs. unfold make_grid, stack.
  destruct psfs as [|t psfs]; [done|].
  assert (Hall : forallb (fun u => bool_decide (shape u = shape t)) (t :: psfs) = true).
  { apply forallb_forall. intros u Hu. apply bool_decide_eq_true.
    rewrite Forall_forall in Hs.
    rewrite (Hs u), (Hs t); [done | by left | by apply list_elem_of_In]. }
  by rewrite Hall.
Qed.

Lemma tile_and_save_ok {L} {disk : Disk} (psfs : list (tensor R)) (s : list nat) (M : nat)
    (save_name : string) (w : world L) :
  psfs <> [] -> Forall (fun t => shape t = s) psfs ->
  save_error save_name = None ->
  tile_and_save psfs M save_name w
  = (Ok save_name,
     World (lens w) (calls w)
           (stdout w ++ ["PSF radial has been saved to " +:+ save_name])
           (<[save_name := ImageFile (Grid psfs M 1 0%R) true]> (files w))).
Proof.
  intros Hne Hs Hfree. unfold tile_and_save.
  unfold mbind at 1, prog_bind, lift. rewrite (make_grid_ok psfs s) by done.
  unfold mbind at 1, prog_bind, save_image. rewrite Hfree.
  reflexivity.
Qed.

(** If the name cannot be written, the tail raises what [save_image]
    raises, and the world is as before. *)
Lemma tile_and_save_refused {L} {disk : Disk} (psfs : list (tensor R)) (s : list nat)
    (M : nat) (save_name : string) (w : world L) (e : exn) :
  psfs <> [] -> Forall (fun t => shape t = s) psfs ->
  save_error save_name = Some e ->
  tile_and_save psfs M save_name w = (Raise e, w).
Proof.
  intros Hne Hs Hfull. unfold tile_and_save.
  unfold mbind at 1, prog_bind, lift. rewrite (make_grid_ok psfs s) by done.
  unfold mbind at 1, prog_bind, save_image. by rewrite Hfull.
Qed.

(** *** Field points *)

Lemma linspace_length (a b : R) (n : nat) : length (linspace a b n) = n.
Proof.
  unfold linspace. destruct n as [|[|n]]; [done | done |].
  by rewrite length_map, length_seq.
Qed.

Lemma linspace_lookup (a b : R) (n i : nat) :
  i < n ->
  linspace a b n !! i = Some (a + INR i * ((b - a) / INR (n - 1)))%R.
Proof.
  intros Hi. unfold linspace. destruct n as [|[|n]]; [lia | |].
  - replace i with 0 by lia. cbn. f_equal. unfold Rdiv. ring.
  - change (map ?f ?l) with (f <$> l).
    rewrite list_lookup_fmap, lookup_seq_lt by done. reflexivity.
Qed.

(** The points of a plotter over [0, b]: as many as asked, evenly spaced
    in x and y, all at the given depth. *)
Lemma points_length (b : R) (M : nat) (d : depth) :
  length (stack_points (linspace 0 b M) (linspace 0 b M) (full_like (linspace 0 b M) d)) = M.
Proof.
  unfold stack_points, full_like.
  rewrite length_zip_with, length_zip, length_map, !linspace_length. lia.
Qed.

Lemma points_lookup (b : R) (M : nat) (d : depth) (i : nat) :
  i < M ->
  stack_points (linspace 0 b M) (linspace 0 b M) (full_like (linspace 0 b M) d) !! i
  = Some (FieldPoint (INR i * (b / INR (M - 1))) (INR i * (b / INR (M - 1))) d)%R.
Proof.
  intros Hi. unfold stack_points, full_like.
  pose proof (linspace_lookup 0 b M i Hi) as Hx.
  assert (Hxy : zip (linspace 0 b M) (linspace 0 b M) !! i
                = Some ((0 + INR i * ((b - 0) / INR (M - 1)))%R,
                        (0 + INR i * ((b - 0) / INR (M - 1)))%R))
    by by apply lookup_zip_Some.
  change (map ?f ?l) with (f <$> l).
  rewrite lookup_zip_with, Hxy, list_lookup_fmap, Hx. cbn.
  do 2 f_equal; unfold Rdiv; ring.
Qed.

Lemma spacing_ends (b : R) (M : nat) :
  (INR 0 * (b / INR (M - 1)))%R = 0%R /\
  (2 <= M -> (INR (M - 1) * (b / INR (M - 1)))%R = b).
Proof.
  split; [cbn; ring|].
  intros HM. field. apply not_0_INR. lia.
Qed.

(** *** The strict plotter *)

Section Strict.
Context {L : Type} `{Lens L} {disk : Disk}.
Variable EPSILON : R.

Lemma fixed_body_ok (points : list field_point) (ks : nat) (log_scale : bool) (i : nat)
    (psfs : list (tensor R)) (w : world L) (p : field_point) (t out : tensor R) (l' : L) :
  points !! i = Some p ->
  psf_rgb (lens w) p ks true 4096 = (Ok t, l') ->
  scale_psf EPSILON log_scale t = Ok out ->
  fixed_body EPSILON points ks log_scale i psfs w
  = (Ok (psfs ++ [out]),
     World l' (calls w ++ [recentered ks p t]) (stdout w) (files w)).
Proof.
  intros Hp Hc Hs.
  unfold fixed_body, index, lift, call_psf_rgb, mbind, prog_bind.
  rewrite Hp, Hc, Hs. reflexivity.
Qed.

Lemma fixed_body_raise (points : list field_point) (ks : nat) (log_scale : bool) (i : nat)
    (psfs : list (tensor R)) (w : world L) (p : field_point) (e : exn) (l' : L) :
  points !! i = Some p ->
  psf_rgb (lens w) p ks true 4096 = (Raise e, l') ->
  fixed_body EPSILON points ks log_scale i psfs w
  = (Raise e,
     World l' (calls w ++ [Call p ks true 4096 (Raise e)]) (stdout w) (files w)).
Proof.
  intros Hp Hc.
  unfold fixed_body, index, lift, call_psf_rgb, mbind, prog_bind.
  rewrite Hp, Hc. reflexivity.
Qed.

Lemma fixed_loop (points : list field_point) (ks : nat) (log_scale : bool) (w0 : world L) :
  always_succeeds L -> 0 < ks ->
  exists psfs w,
    for_each (fixed_body EPSILON points ks log_scale) (seq 0 (length points)) [] w0
    = (Ok psfs, w) /\
    fixed_invariant EPSILON points ks log_scale w0 (length points) psfs w.
Proof.
  intros Hlens Hks.
  apply (for_each_invariant (fixed_invariant EPSILON points ks log_scale w0)).
  - intros i psfs w Hi (raws & Hlen & Hcalls & Hsc & Hsh & Hout & Hfiles).
    destruct (lookup_lt_is_Some_2 points i Hi) as [p Hp].
    destruct (Hlens (lens w) p ks true 4096) as (t & l' & Hc & Ht).
    destruct (scale_psf_ok EPSILON log_scale t (shaped_nonempty ks t Hks Ht))
      as (out & Hs & Hscaled & Hshape & _).
    eexists _, _. split; [by apply (fixed_body_ok _ _ _ _ _ _ p t out l')|].
    exists (raws ++ [t]). cbn [calls stdout files].
    split; [rewrite length_app; cbn; lia|].
    split.
    { rewrite Hcalls, (take_S_r _ _ _ Hp), zip_with_app, <- (assoc_L (++)); [done|].
      rewrite length_take. lia. }
    split; [apply Forall2_app; [done | by constructor]|].
    split; [|done].
    apply Forall_app. split; [done|]. constructor; [|done].
    destruct Ht as [Ht _]. by rewrite Hshape.
  - exists []. cbn. rewrite app_nil_r. by repeat split.
Qed.

(** A run of the strict plotter on a lens that always succeeds. *)
Lemma fixed_psf_radial_ok (M : nat) (d : depth) (ks : nat) (log_scale : bool)
    (save_name : string) (w : world L) :
  always_succeeds L -> 0 < M -> 0 < ks -> save_error save_name = None ->
  exists raws outs w',
    fixed_psf_radial EPSILON M d ks log_scale save_name w = (Ok save_name, w') /\
    length raws = M /\
    calls w' = calls w ++ zip_with (recentered ks) (fixed_points M d) raws /\
    Forall2 (scaled EPSILON log_scale) raws outs /\
    files w' = <[save_name := ImageFile (Grid outs M 1 0%R) true]> (files w).
Proof.
  intros Hlens HM Hks Hfree.
  pose proof (points_length 1 M d) as Hlen. fold (fixed_points M d) in Hlen.
  destruct (fixed_loop (fixed_points M d) ks log_scale w Hlens Hks)
    as (psfs & w1 & Hloop & raws & Hraws & Hcalls & Hsc & Hsh & _ & Hfiles).
  rewrite Hlen in Hloop, Hraws, Hcalls.
  exists raws, psfs. eexists.
  unfold fixed_psf_radial. rewrite (bind_ok _ _ _ _ _ Hloop).
  rewrite (tile_and_save_ok psfs [3; ks; ks]); [|
    apply Forall2_length in Hsc; destruct psfs; [cbn in Hsc; lia | done] | done | done].
  split; [reflexivity|]. cbn [calls files].
  split; [done|]. split; [|by rewrite Hfiles].
  rewrite Hcalls, take_ge; [done | lia].
Qed.

(** A run on a lens that always succeeds, under a name that cannot be
    written: all requests are made, then [save_image] raises. *)
Lemma fixed_psf_radial_refused (M : nat) (d : depth) (ks : nat) (log_scale : bool)
    (save_name : string) (w : world L) (e : exn) :
  always_succeeds L -> 0 < M -> 0 < ks -> save_error save_name = Some e ->
  exists w',
    fixed_psf_radial EPSILON M d ks log_scale save_name w = (Raise e, w') /\
    length (calls w') = length (calls w) + M /\
    files w' = files w.
Proof.
  intros Hlens HM Hks Hfull.
  pose proof (points_length 1 M d) as Hlen. fold (fixed_points M d) in Hlen.
  destruct (fixed_loop (fixed_points M d) ks log_scale w Hlens Hks)
    as (psfs & w1 & Hloop & raws & Hraws & Hcalls & Hsc & Hsh & _ & Hfiles).
  rewrite Hlen in Hloop, Hraws, Hcalls.
  exists w1.
  unfold fixed_psf_radial. rewrite (bind_ok _ _ _ _ _ Hloop).
  rewrite (tile_and_save_refused psfs [3; ks; ks] _ _ _ e); [|
    apply Forall2_length in Hsc; destruct psfs; [cbn in Hsc; lia | done] | done | done].
  split; [reflexivity|]. split; [|done].
  rewrite Hcalls, length_app, length_zip_with, length_take, Hlen. lia.
Qed.

(** A run in which the lens raises on the first field point. *)
Lemma fixed_psf_radial_raise (M : nat) (d : depth) (ks : nat) (log_scale : bool)
    (save_name : string) (w : world L) (p0 : field_point) (e : exn) (l' : L) :
  fixed_points M d !! 0 = Some p0 ->
  psf_rgb (lens w) p0 ks true 4096 = (Raise e, l') ->
  exists w',
    fixed_psf_radial EPSILON M d ks log_scale save_name w = (Raise e, w') /\
    calls w' = calls w ++ [Call p0 ks true 4096 (Raise e)] /\
    files w' = files w.
Proof.
  intros Hp Hc.
  destruct M as [|M]; [cbn in Hp; discriminate Hp|].
  eexists. unfold fixed_psf_radial.
  change (seq 0 (S M)) with (0 :: seq 1 M).
  rewrite (bind_raise _ _ w _ e
             (for_each_raise _ 0 _ _ _ _ _ (fixed_body_raise _ _ _ _ _ _ _ _ _ Hp Hc))).
  done.
Qed.

End Strict.

(** *** The Gaussian placeholder *)

Lemma sum_scaled (l : list R) (k : R) :
  foldr Rplus 0%R (map (fun x => (x / k)%R) l) = (foldr Rplus 0%R l / k)%R.
Proof.
  induction l as [|x l IH]; cbn [map foldr]; [unfold Rdiv; ring|].
  rewrite IH. unfold Rdiv. ring.
Qed.

Lemma sum_positive (l : list R) :
  l <> [] -> Forall (fun x => (0 < x)%R) l -> (0 < foldr Rplus 0%R l)%R.
Proof.
  intros Hne Hpos. destruct l as [|x l]; [done|].
  apply Forall_cons in Hpos as [Hx Hl]. cbn [foldr].
  assert (Hnn : (0 <= foldr Rplus 0%R l)%R).
  { clear Hne Hx. induction Hl as [|y l Hy Hl IH]; cbn [foldr]; lra. }
  lra.
Qed.

(** Row-major layout of a table given by rows. *)
Lemma table_length (f : nat -> nat -> R) (a n m : nat) :
  length (flat_map (fun r => map (f r) (seq 0 m)) (seq a n)) = n * m.
Proof.
  revert a. induction n as [|n IH]; intros a; [done|].
  cbn [seq flat_map]. rewrite length_app, length_map, length_seq, IH. lia.
Qed.

Lemma table_lookup (f : nat -> nat -> R) (a n m r c : nat) :
  r < n -> c < m ->
  flat_map (fun r => map (f r) (seq 0 m)) (seq a n) !! (r * m + c) = Some (f (a + r) c).
Proof.
  revert a r. induction n as [|n IH]; intros a r Hr Hc; [lia|].
  cbn [seq flat_map]. destruct r as [|r].
  - rewrite lookup_app_l by (rewrite length_map, length_seq; lia).
    change (map ?g ?l) with (g <$> l).
    rewrite list_lookup_fmap, lookup_seq_lt by done.
    cbn. by rewrite Nat.add_0_r.
  - rewrite lookup_app_r by (rewrite length_map, length_seq; lia).
    rewrite length_map, length_seq.
    replace (S r * m + c - m) with (r * m + c) by lia.
    rewrite IH by lia. f_equal. f_equal. lia.
Qed.

Lemma table_positive (f : nat -> nat -> R) (a n m : nat) :
  (forall r c, (0 < f r c)%R) ->
  Forall (fun x => (0 < x)%R) (flat_map (fun r => map (f r) (seq 0 m)) (seq a n)).
Proof.
  intros Hf. apply Forall_forall. intros x Hx%list_elem_of_In.
  apply in_flat_map in Hx as (r & _ & Hx).
  apply in_map_iff in Hx as (c & <- & _). apply Hf.
Qed.

(** The code's placeholder is the one of the specification. *)
Lemma placeholder_spec (ks i : nat) :
  0 < ks ->
  exists t, placeholder ks i = Ok t /\ is_placeholder ks i t /\ psf_shaped ks t.
Proof.
  intros Hks. unfold placeholder.
  set (sigma := (2.0 + INR i * 1.5)%R).
  set (spot := gaussian_spot ks sigma).
  set (total := tsum spot).
  set (g := map (fun x => (x / total)%R) (data spot)).
  assert (Hlen : length (data spot) = ks * ks) by apply table_length.
  assert (Htotal : (0 < total)%R).
  { apply sum_positive.
    - intros Hnil. rewrite Hnil in Hlen. cbn in Hlen. nia.
    - apply table_positive. intros r c. apply exp_pos. }
  exists (Tensor [3; ks; ks] (g ++ g ++ g)). split; [|split].
  - unfold stack, tmap. cbn [shape data forallb].
    rewrite bool_decide_eq_true_2 by done. cbn [andb length map concat].
    by rewrite app_nil_r.
  - exists g, total. split; [done|].
    split; [by unfold g; rewrite length_map|].
    split; [unfold g; rewrite sum_scaled; fold (tsum spot); fold total; field; lra|].
    split; [done|].
    intros r c Hr Hc. unfold g. change (map ?h ?l) with (h <$> l).
    rewrite list_lookup_fmap. unfold spot, gaussian_spot. cbn [data].
    rewrite (table_lookup _ 0 ks ks r c Hr Hc). cbn. unfold gaussian_at, sigma.
    do 4 f_equal. ring.
  - split; [done|]. cbn [data]. rewrite !length_app.
    unfold g. rewrite length_map, Hlen. lia.
Qed.

(** And the placeholder of the specification is the code's: the words
    determine the tensor. *)
Lemma placeholder_unique (ks i : nat) (t : tensor R) :
  is_placeholder ks i t -> placeholder ks i = Ok t.
Proof.
  intros (g & total & -> & Hlen & Hsum & Htotal & Hg).
  unfold placeholder.
  set (sigma := (2.0 + INR i * 1.5)%R).
  set (spot := gaussian_spot ks sigma).
  assert (Hspot : length (data spot) = ks * ks) by apply table_length.
  assert (Heq : g = map (fun x => (x / total)%R) (data spot)).
  { apply list_eq. intros k. destruct (decide (k < ks * ks)) as [Hk | Hk].
    - assert (Hks : ks <> 0) by nia.
      assert (Hr : k / ks < ks) by (apply Nat.Div0.div_lt_upper_bound; lia).
      assert (Hc : k mod ks < ks) by by apply Nat.mod_upper_bound.
      assert (Hsplit : k = k / ks * ks + k mod ks).
      { rewrite (Nat.div_mod k ks Hks) at 1. lia. }
      rewrite Hsplit, (Hg _ _ Hr Hc). change (map ?h ?l) with (h <$> l).
      rewrite list_lookup_fmap. unfold spot, gaussian_spot. cbn [data].
      rewrite (table_lookup _ 0 ks ks _ _ Hr Hc). cbn. unfold gaussian_at, sigma.
      do 4 f_equal. ring.
    - rewrite !lookup_ge_None_2; [done | rewrite length_map; lia | lia]. }
  assert (Htot : tsum spot = total).
  { rewrite Heq, sum_scaled in Hsum. fold (tsum spot) in Hsum.
    assert (Hx : tsum spot = (tsum spot / total * total)%R) by (field; lra).
    rewrite Hsum in Hx. lra. }
  unfold stack, tmap. cbn [shape data forallb].
  rewrite bool_decide_eq_true_2 by done. cbn [andb length map concat].
  by rewrite app_nil_r, Htot, <- Heq.
Qed.

(** The spot has its peak, of height 1 before normalisation, at the centre. *)
Lemma gaussian_at_centre (ks : nat) (sigma : R) (r c : nat) :
  (gaussian_at ks sigma r c <= gaussian_at ks sigma (ks / 2) (ks / 2))%R /\
  gaussian_at ks sigma (ks / 2) (ks / 2) = 1%R.
Proof.
  assert (Hc : gaussian_at ks sigma (ks / 2) (ks / 2) = 1%R).
  { unfold gaussian_at. rewrite Z.sub_diag. change (0 ^ 2 + 0 ^ 2)%Z with 0%Z.
    replace (- 0 / (2 * sigma ^ 2))%R with 0%R by (unfold Rdiv; ring).
    apply exp_0. }
  split; [|done]. rewrite Hc. unfold gaussian_at.
  set (d := ((Z.of_nat c - Z.of_nat (ks / 2)) ^ 2 + (Z.of_nat r - Z.of_nat (ks / 2)) ^ 2)%Z).
  assert (Hd : (0 <= IZR d)%R) by (apply IZR_le; unfold d; nia).
  assert (Hq : (0 <= / (2 * sigma ^ 2))%R).
  { destruct (Req_dec sigma 0) as [-> | Hs].
    - replace (2 * 0 ^ 2)%R with 0%R by ring. rewrite Rinv_0. lra.
    - left. apply Rinv_0_lt_compat. assert (0 < sigma ^ 2)%R by (cbn; nra). lra. }
  rewrite <- exp_0. destruct (Req_dec (IZR d) 0) as [Hz | Hnz].
  - rewrite Hz. right. f_equal. unfold Rdiv. ring.
  - destruct Hq as [Hq | Hq].
    + left. apply exp_increasing. unfold Rdiv.
      assert (0 < IZR d * / (2 * sigma ^ 2))%R by (apply Rmult_lt_0_compat; lra). lra.
    + right. f_equal. unfold Rdiv. rewrite <- Hq. ring.
Qed.

(** *** The robust plotter *)

Section Robust.
Context {L : Type} `{Lens L} {disk : Disk}.
Variable EPSILON : R.

(** Tier 1: the recentered request succeeds. *)
Lemma fetch_first_ok (p : field_point) (ks i : nat) (w : world L) (t : tensor R) (l1 : L) :
  psf_rgb (lens w) p ks true 4096 = (Ok t, l1) ->
  fetch_psf p ks i w
  = (Ok t, World l1 (calls w ++ [recentered ks p t]) (stdout w) (files w)).
Proof.
  intros H1. unfold fetch_psf, try_except, call_psf_rgb. by rewrite H1.
Qed.

(** The recentered request raises something else than the assertion. *)
Lemma fetch_first_other (p : field_point) (ks i : nat) (w : world L) (e : exn) (l1 : L) :
  psf_rgb (lens w) p ks true 4096 = (Raise e, l1) ->
  is_AssertionError e = false ->
  fetch_psf p ks i w
  = (Raise e, World l1 (calls w ++ [Call p ks true 4096 (Raise e)]) (stdout w) (files w)).
Proof.
  intros H1 He. unfold fetch_psf, try_except, call_psf_rgb. by rewrite H1, He.
Qed.

(** Tier 2: the request without recentering succeeds. *)
Lemma fetch_second_ok (p : field_point) (ks i : nat) (w : world L) (e : exn)
    (t : tensor R) (l1 l2 : L) :
  psf_rgb (lens w) p ks true 4096 = (Raise e, l1) ->
  is_AssertionError e = true ->
  psf_rgb l1 p ks false 4096 = (Ok t, l2) ->
  fetch_psf p ks i w
  = (Ok t,
     World l2
       ((calls w ++ [Call p ks true 4096 (Raise e)]) ++ [Call p ks false 4096 (Ok t)])
       (stdout w ++ ["Trying without recentering for field point " +:+ pretty i])
       (files w)).
Proof.
  intros H1 He H2.
  unfold fetch_psf, try_except, call_psf_rgb, print, mbind, prog_bind.
  rewrite H1, He. cbn [lens calls stdout files]. by rewrite H2.
Qed.

(** Tier 3: both requests fail, the second for whatever reason. *)
Lemma fetch_placeholder (p : field_point) (ks i : nat) (w : world L) (e e2 : exn)
    (l1 l2 : L) :
  psf_rgb (lens w) p ks true 4096 = (Raise e, l1) ->
  is_AssertionError e = true ->
  psf_rgb l1 p ks false 4096 = (Raise e2, l2) ->
  fetch_psf p ks i w
  = (placeholder ks i,
     World l2
       ((calls w ++ [Call p ks true 4096 (Raise e)]) ++ [Call p ks false 4096 (Raise e2)])
       ((stdout w ++ ["Trying without recentering for field point " +:+ pretty i])
          ++ ["Creating placeholder Gaussian PSF for field point " +:+ pretty i])
       (files w)).
Proof.
  intros H1 He H2.
  unfold fetch_psf, try_except, call_psf_rgb, print, lift, mbind, prog_bind.
  rewrite H1, He. cbn [lens calls stdout files]. by rewrite H2.
Qed.

(** The [try] statement never touches the files. *)
Lemma fetch_files (p : field_point) (ks i : nat) (w : world L) :
  files (fetch_psf p ks i w).2 = files w.
Proof.
  destruct (psf_rgb (lens w) p ks true 4096) as [[t|e] l1] eqn:H1.
  - by rewrite (fetch_first_ok _ _ _ _ _ _ H1).
  - destruct (is_AssertionError e) eqn:He.
    + destruct (psf_rgb l1 p ks false 4096) as [[t|e2] l2] eqn:H2.
      * by rewrite (fetch_second_ok _ _ _ _ _ _ _ _ H1 He H2).
      * by rewrite (fetch_placeholder _ _ _ _ _ _ _ _ H1 He H2).
    + by rewrite (fetch_first_other _ _ _ _ _ _ H1 He).
Qed.

Lemma robust_body_files (points : list field_point) (ks : nat) (log_scale : bool)
    (i : nat) (psfs : list (tensor R)) (w : world L) :
  files (robust_body EPSILON points ks log_scale i psfs w).2 = files w.
Proof.
  unfold robust_body, index, lift, mbind, prog_bind.
  destruct (points !! i) as [p|]; [|done].
  pose proof (fetch_files p ks i w) as Hf.
  destruct (fetch_psf p ks i w) as [[t|e] w1]; [|done].
  cbn [snd] in Hf. by destruct (scale_psf EPSILON log_scale t).
Qed.

Lemma for_each_files {A} (body : nat -> A -> prog L A) (l : list nat) :
  (forall i acc w, files (body i acc w).2 = files w) ->
  forall acc w, files (for_each body l acc w).2 = files w.
Proof.
  intros Hb. induction l as [|i l IH]; intros acc w; [done|].
  cbn [for_each]. unfold mbind, prog_bind.
  pose proof (Hb i acc w) as Hi.
  destruct (body i acc w) as [[acc'|e] w1]; cbn [snd] in Hi; [|done].
  by rewrite IH.
Qed.

Lemma robust_body_raise (points : list field_point) (ks : nat) (log_scale : bool) (i : nat)
    (psfs : list (tensor R)) (w : world L) (p : field_point) (e : exn) (l' : L) :
  points !! i = Some p ->
  psf_rgb (lens w) p ks true 4096 = (Raise e, l') ->
  is_AssertionError e = false ->
  robust_body EPSILON points ks log_scale i psfs w
  = (Raise e, World l' (calls w ++ [Call p ks true 4096 (Raise e)]) (stdout w) (files w)).
Proof.
  intros Hp H1 He. unfold robust_body, index, lift.
  unfold mbind at 1, prog_bind. rewrite Hp.
  by rewrite (bind_raise _ _ _ _ _ (fetch_first_other _ _ i _ _ _ H1 He)).
Qed.

(** *** The robust plotter follows the fallback policy *)

(** One field point: the [try] statement yields the PSF of the policy,
    makes its requests and leaves the lens in its state. *)
Lemma fetch_follows_tier (p : field_point) (ks i : nat) (w : world L) (t : tensor R)
    (requests : list call) (l' : L) :
  tier_of ks i (lens w) p t requests l' ->
  exists lines,
    fetch_psf p ks i w
    = (Ok t, World l' (calls w ++ requests) (stdout w ++ lines) (files w)).
Proof.
  intros Ht.
  inversion Ht as [t0 l1 H1 | e l1 t0 l2 H1 He H2 | e l1 e' l2 t0 H1 He H2 Hp]; subst.
  - exists []. rewrite app_nil_r. exact (fetch_first_ok _ _ i _ _ _ H1).
  - eexists [_]. rewrite (fetch_second_ok _ _ i _ _ _ _ _ H1 He H2).
    by rewrite <- (assoc_L (++)).
  - eexists [_; _]. rewrite (fetch_placeholder _ _ i _ _ _ _ _ H1 He H2).
    rewrite (placeholder_unique _ _ _ Hp). by rewrite <- !(assoc_L (++)).
Qed.

Lemma fallback_run_length (ks i : nat) (l : L) (points : list field_point)
    (raws : list (tensor R)) (trace : list call) (l' : L) :
  fallback_run ks i l points raws trace l' -> length raws = length points.
Proof. induction 1; cbn; congruence. Qed.

(** The loop, from the field point at position [length pre] on. *)
Lemma robust_loop_follows (ks : nat) (log_scale : bool) (i : nat) (l : L)
    (points : list field_point) (raws : list (tensor R)) (trace : list call) (l' : L) :
  fallback_run ks i l points raws trace l' ->
  0 < ks -> Forall (psf_shaped ks) raws ->
  forall (pre : list field_point) (acc : list (tensor R)) (w : world L),
    length pre = i -> lens w = l ->
    exists outs w',
      for_each (robust_body EPSILON (pre ++ points) ks log_scale)
        (seq i (length points)) acc w = (Ok (acc ++ outs), w') /\
      Forall2 (scaled EPSILON log_scale) raws outs /\
      Forall (fun t => shape t = [3; ks; ks]) outs /\
      lens w' = l' /\ calls w' = calls w ++ trace /\ files w' = files w.
Proof.
  intros Hrun Hks.
  induction Hrun as [i l | i l p points t requests l1 ts trace l2 Htier Hrun IH];
    intros Hshaped pre acc w Hpre Hl.
  - exists [], w. cbn. rewrite !app_nil_r. by repeat split.
  - apply Forall_cons in Hshaped as [Ht Hts]. subst l.
    destruct (fetch_follows_tier p ks i w t requests l1 Htier) as [lines Hfetch].
    destruct (scale_psf_ok EPSILON log_scale t (shaped_nonempty ks t Hks Ht))
      as (out & Hs & Hscaled & Hshape & _).
    assert (Hbody : robust_body EPSILON (pre ++ p :: points) ks log_scale i acc w
                    = (Ok (acc ++ [out]),
                       World l1 (calls w ++ requests) (stdout w ++ lines) (files w))).
    { unfold robust_body, index, lift, mbind, prog_bind.
      rewrite (list_lookup_middle pre points p i) by done. by rewrite Hfetch, Hs. }
    destruct (IH Hts (pre ++ [p]) (acc ++ [out])
                (World l1 (calls w ++ requests) (stdout w ++ lines) (files w)))
      as (outs & w' & Hloop & Hsc & Hsh & Hlens & Hcalls & Hfiles);
      [rewrite length_app; cbn; lia | done |].
    exists (out :: outs), w'.
    split.
    { cbn [length seq for_each]. rewrite (bind_ok _ _ _ _ _ Hbody).
      rewrite <- (assoc_L (++)) in Hloop. cbn [app] in Hloop.
      rewrite Hloop. by rewrite <- (assoc_L (++)). }
    split; [by constructor|].
    split; [constructor; [destruct Ht as [Ht _]; by rewrite Hshape | done]|].
    split; [done|]. split; [|done].
    rewrite Hcalls. cbn [calls]. by rewrite <- (assoc_L (++)).
Qed.

(** The whole call, under a name that can be written. *)
Lemma robust_psf_radial_follows (M : nat) (d : depth) (ks : nat) (log_scale : bool)
    (save_name : string) (w : world L) (raws : list (tensor R)) (trace : list call)
    (l' : L) :
  0 < M -> 0 < ks -> save_error save_name = None ->
  fallback_run ks 0 (lens w) (robust_points M d) raws trace l' ->
  Forall (psf_shaped ks) raws ->
  exists outs w',
    robust_psf_radial EPSILON M d ks log_scale save_name w = (Ok save_name, w') /\
    Forall2 (scaled EPSILON log_scale) raws outs /\
    lens w' = l' /\
    calls w' = calls w ++ trace /\
    files w' = <[save_name := ImageFile (Grid outs M 1 0%R) true]> (files w).
Proof.
  intros HM Hks Hfree Hrun Hshaped.
  pose proof (points_length 0.7 M d) as Hlen. fold (robust_points M d) in Hlen.
  pose proof (fallback_run_length _ _ _ _ _ _ _ Hrun) as Hraws.
  destruct (robust_loop_follows ks log_scale 0 (lens w) _ raws trace l' Hrun Hks Hshaped
              [] [] w eq_refl eq_refl)
    as (outs & w1 & Hloop & Hsc & Hsh & Hlens & Hcalls & Hfiles).
  cbn [app] in Hloop. rewrite Hlen in Hloop.
  exists outs. eexists. unfold robust_psf_radial.
  rewrite (bind_ok _ _ _ _ _ Hloop).
  rewrite (tile_and_save_ok outs [3; ks; ks]); [| | done | done].
  - split; [reflexivity|]. cbn [lens calls files]. by rewrite Hfiles.
  - apply Forall2_length in Hsc. destruct outs; [cbn in Hsc; lia | done].
Qed.

(** The whole call, under a name that cannot be written: the requests are
    made all the same, then [save_image] raises. *)
Lemma robust_psf_radial_refused (M : nat) (d : depth) (ks : nat) (log_scale : bool)
    (save_name : string) (w : world L) (raws : list (tensor R)) (trace : list call)
    (l' : L) (e : exn) :
  0 < M -> 0 < ks -> save_error save_name = Some e ->
  fallback_run ks 0 (lens w) (robust_points M d) raws trace l' ->
  Forall (psf_shaped ks) raws ->
  exists w',
    robust_psf_radial EPSILON M d ks log_scale save_name w = (Raise e, w') /\
    calls w' = calls w ++ trace /\
    files w' = files w.
Proof.
  intros HM Hks Hfull Hrun Hshaped.
  pose proof (points_length 0.7 M d) as Hlen. fold (robust_points M d) in Hlen.
  pose proof (fallback_run_length _ _ _ _ _ _ _ Hrun) as Hraws.
  destruct (robust_loop_follows ks log_scale 0 (lens w) _ raws trace l' Hrun Hks Hshaped
              [] [] w eq_refl eq_refl)
    as (outs & w1 & Hloop & Hsc & Hsh & Hlens & Hcalls & Hfiles).
  cbn [app] in Hloop. rewrite Hlen in Hloop.
  exists w1. unfold robust_psf_radial.
  rewrite (bind_ok _ _ _ _ _ Hloop).
  rewrite (tile_and_save_refused outs [3; ks; ks] _ _ _ e); [done | | done | done].
  apply Forall2_length in Hsc. destruct outs; [cbn in Hsc; lia | done].
Qed.

(** On a lens whose recentered requests fail by the assertion only, the
    policy yields a well-shaped PSF for every field point. *)
Lemma policy_run_exists (ks : nat) (points : list field_point) :
  fails_by_validity_only L -> 0 < ks ->
  forall (i : nat) (l : L),
    exists raws trace l',
      fallback_run ks i l points raws trace l' /\ Forall (psf_shaped ks) raws.
Proof.
  intros Hlens Hks. induction points as [|p points IH]; intros i l.
  - exists [], [], l. split; constructor.
  - assert (Htier : exists t requests l1,
              tier_of ks i l p t requests l1 /\ psf_shaped ks t).
    { destruct (Hlens l p ks 4096) as (Hok1 & Hraise1 & _).
      destruct (psf_rgb l p ks true 4096) as [[t|e] l1] eqn:H1.
      - eexists t, _, l1. split; [by constructor | by apply (Hok1 t l1)].
      - assert (He : is_AssertionError e = true) by by apply (Hraise1 e l1).
        destruct (Hlens l1 p ks 4096) as (_ & _ & Hok2).
        destruct (psf_rgb l1 p ks false 4096) as [[t|e2] l2] eqn:H2.
        + eexists t, _, l2. split; [by eapply tier_not_recentered | by apply (Hok2 t l2)].
        + destruct (placeholder_spec ks i Hks) as (t & _ & Hspec & Hshaped).
          eexists t, _, l2. split; [by eapply tier_placeholder | done]. }
    destruct Htier as (t & requests & l1 & Htier & Ht).
    destruct (IH (S i) l1) as (ts & trace & l2 & Hrun & Hts).
    exists (t :: ts), (requests ++ trace), l2. split; [by econstructor | by constructor].
Qed.

(** A run in which, after [i] field points, the recentered request raises
    something else than the assertion. *)
Lemma robust_psf_radial_abort (M : nat) (d : depth) (ks : nat) (log_scale : bool)
    (save_name : string) (w wi : world L) (i : nat) (psfs : list (tensor R))
    (p : field_point) (e : exn) (l' : L) :
  robust_iterations EPSILON M d ks log_scale i w = (Ok psfs, wi) ->
  robust_points M d !! i = Some p ->
  psf_rgb (lens wi) p ks true 4096 = (Raise e, l') ->
  is_AssertionError e = false ->
  robust_psf_radial EPSILON M d ks log_scale save_name w
  = (Raise e, World l' (calls wi ++ [Call p ks true 4096 (Raise e)]) (stdout wi) (files w)).
Proof.
  intros Hloop Hp H1 He.
  pose proof (points_length 0.7 M d) as Hlen. fold (robust_points M d) in Hlen.
  assert (Hi : i < M) by (rewrite <- Hlen; by apply (lookup_lt_Some _ _ p)).
  assert (Hfiles : files wi = files w).
  { pose proof (for_each_files (robust_body EPSILON (robust_points M d) ks log_scale)
                  (seq 0 i) (robust_body_files _ _ _) [] w) as Hf.
    unfold robust_iterations in Hloop. rewrite Hloop in Hf. done. }
  unfold robust_psf_radial.
  replace (seq 0 M) with (seq 0 i ++ i :: seq (S i) (M - S i)).
  2:{ rewrite cons_seq, <- seq_app. f_equal. lia. }
  erewrite bind_raise; [reflexivity|].
  rewrite (for_each_app _ _ _ _ _ _ _ Hloop).
  rewrite (for_each_raise _ _ _ _ _ _ _ (robust_body_raise _ _ _ _ _ _ _ _ _ Hp H1 He)).
  by rewrite Hfiles.
Qed.

End Robust.

(** *** The log-scale step *)

Section LogScale.
Variable EPSILON : R.

Lemma ln_shift_le (a b : R) :
  (0 < a + EPSILON)%R -> (a <= b)%R -> (ln (a + EPSILON) <= ln (b + EPSILON))%R.
Proof.
  intros Ha [Hlt| ->]; [|lra].
  left. apply ln_increasing; lra.
Qed.

(** Min-max rescaling of a list whose least element is below its greatest. *)
Lemma rescale_extrema (l : list R) (lo hi : R) :
  is_min l lo -> is_max l hi -> (lo < hi)%R ->
  is_min (map (fun x => ((x - lo) / (hi - lo))%R) l) 0%R /\
  is_max (map (fun x => ((x - lo) / (hi - lo))%R) l) 1%R.
Proof.
  intros Hlo Hhi Hlt.
  assert (Hpos : (0 < / (hi - lo))%R) by (apply Rinv_0_lt_compat; lra).
  split.
  - replace 0%R with ((lo - lo) / (hi - lo))%R by (unfold Rdiv; rewrite Rminus_diag; lra).
    apply (is_min_map (fun x => ((x - lo) / (hi - lo))%R)); [|done].
    intros x _ Hx. unfold Rdiv. apply Rmult_le_compat_r; lra.
  - replace 1%R with ((hi - lo) / (hi - lo))%R by (field; lra).
    apply (is_max_map (fun x => ((x - lo) / (hi - lo))%R)); [|done].
    intros x _ Hx. unfold Rdiv. apply Rmult_le_compat_r; lra.
Qed.

(** The step on a tensor whose values stay above [- EPSILON] and are not
    all equal. *)
Lemma log_scale_step_extrema (psf : tensor R) (mn mx : R) :
  tmin psf = Ok mn -> tmax psf = Ok mx ->
  (0 < mn + EPSILON)%R -> (mn < mx)%R ->
  exists out, log_scale_step EPSILON psf = Ok out /\
              shape out = shape psf /\
              length (data out) = length (data psf) /\
              tmin out = Ok 0%R /\ tmax out = Ok 1%R.
Proof.
  intros Hmn%tmin_spec Hmx%tmax_spec Hpos Hlt.
  set (f := fun x => ln (x + EPSILON)).
  assert (Hlo : is_min (map f (data psf)) (f mn)).
  { apply is_min_map; [|done]. intros x _ Hx. by apply ln_shift_le. }
  assert (Hhi : is_max (map f (data psf)) (f mx)).
  { apply is_max_map; [|done]. intros x Hx Hle. apply ln_shift_le; [|done].
    destruct Hmn as [_ Hlb]. specialize (Hlb x Hx). lra. }
  assert (Hflt : (f mn < f mx)%R) by (apply ln_increasing; lra).
  destruct (rescale_extrema _ _ _ Hlo Hhi Hflt) as [H0 H1].
  unfold log_scale_step. fold f.
  assert (Etmin : tmin (tmap f psf) = Ok (f mn)) by by apply tmin_spec.
  assert (Etmax : tmax (tmap f psf) = Ok (f mx)) by by apply tmax_spec.
  rewrite Etmin, Etmax. cbn [mbind result_bind mret result_ret].
  eexists. split; [reflexivity|].
  split; [done|]. split; [by cbn; rewrite !length_map|].
  split; [by apply tmin_spec | by apply tmax_spec].
Qed.

End LogScale.

(** C6, as stated, fails: a PSF whose values are all equal has a positive
    maximum, but its log values have equal minimum and maximum, and the
    rescaling divides zero by zero.  Whatever value that quotient has, it
    is zero times a number, so the greatest output is not 1.  (In torch the
    output is NaN throughout.) *)
Lemma constant_psf_not_rescaled :
  ~ (forall (EPSILON : R) (psf : tensor R) (mx : R),
       (0 < EPSILON)%R -> tmax psf = Ok mx -> (0 < mx)%R ->
       exists out, log_scale_step EPSILON psf = Ok out /\
                   tmin out = Ok 0%R /\ tmax out = Ok 1%R).
Proof.
  intros Hall.
  destruct (Hall 1%R (Tensor [3; 1; 1] [1; 1; 1]%R) 1%R) as (out & Hout & _ & Hmax).
  - lra.
  - apply tmax_spec. split; [by left | intros y [<-|[<-|[<-|[]]]]; cbn; lra].
  - lra.
  - unfold log_scale_step, tmap, tmin, tmax in Hout. cbn in Hout.
    injection Hout as <-.
    apply tmax_spec in Hmax. destruct Hmax as [Hin _]. cbn in Hin.
    assert (Hz : forall a b : R, ((a - a) / b)%R = 0%R)
      by (intros a b; unfold Rdiv; rewrite Rminus_diag; apply Rmult_0_l).
    set (c := ln (1 + 1)) in Hin.
    rewrite !(Rmin_left c c), !Hz in Hin by lra.
    destruct Hin as [?|[?|[?|[]]]]; lra.
Qed.

(** C6, amended.  In either plotter, for every PSF with a positive maximum
    whose values are all above [- EPSILON] (every non-negative PSF, when
    [EPSILON] is positive) and not all equal, the log-scale step returns a
    tensor of the same shape whose least element is 0 and whose greatest
    element is 1. *)
Theorem log_scale_min_zero_max_one (EPSILON : R) (psf : tensor R) (mn mx : R) :
  tmin psf = Ok mn -> tmax psf = Ok mx ->
  (0 < mx)%R ->
  (0 < mn + EPSILON)%R ->
  (mn < mx)%R ->
  exists out, log_scale_step EPSILON psf = Ok out /\
              shape out = shape psf /\
              length (data out) = length (data psf) /\
              tmin out = Ok 0%R /\ tmax out = Ok 1%R.
Proof. intros Hmn Hmx _ Hpos Hlt. by apply (log_scale_step_extrema EPSILON psf mn mx). Qed.

Lemma log_scale_min_zero_max_one_witness :
  exists out, log_scale_step 1e-9%R (Tensor [3; 1; 1] [0.25; 1; 0.5]%R) = Ok out /\
              shape out = [3; 1; 1] /\
              length (data out) = 3 /\
              tmin out = Ok 0%R /\ tmax out = Ok 1%R.
Proof.
  apply (log_scale_min_zero_max_one 1e-9%R (Tensor [3; 1; 1] [0.25; 1; 0.5]%R) 0.25%R 1%R).
  - apply tmin_spec. split; [by left | intros y [<-|[<-|[<-|[]]]]; cbn; lra].
  - apply tmax_spec. split; [by right; left | intros y [<-|[<-|[<-|[]]]]; cbn; lra].
  - lra.
  - lra.
  - lra.
Defined.

(** *** The lens stand-ins keep their contracts *)

Lemma uniform_psf_shaped (ks : nat) : psf_shaped ks (uniform_psf ks).
Proof. split; [done|]. cbn. apply repeat_length. Qed.

Lemma steady_always_succeeds : always_succeeds steady_lens.
Proof.
  intros l p ks recenter spp. exists (uniform_psf ks), l.
  split; [done | apply uniform_psf_shaped].
Qed.

Lemma invalid_fails_by_validity_only : fails_by_validity_only invalid_lens.
Proof.
  intros l p ks spp. split; [|split].
  - intros t l' [=].
  - by intros e l' [= <- _].
  - intros t l' [=].
Qed.

Lemma edgy_fails_by_validity_only : fails_by_validity_only edgy_lens.
Proof.
  intros l p ks spp. split; [|split].
  - intros t l' [=].
  - by intros e l' [= <- _].
  - intros t l' [= <- _]. apply uniform_psf_shaped.
Qed.

(** The second tier on a lens that fails the assertion with recentering
    only: two requests, one message, the PSF of the second request. *)
Example edgy_second_tier :
  fetch_psf (FieldPoint 0 0 (Finite 1000)) 2 1 (fresh EdgyLens)
  = (Ok (uniform_psf 2),
     World EdgyLens
       [ Call (FieldPoint 0 0 (Finite 1000)) 2 true 4096 (Raise AssertionError);
         Call (FieldPoint 0 0 (Finite 1000)) 2 false 4096 (Ok (uniform_psf 2)) ]
       [ "Trying without recentering for field point 1" ]
       ∅).
Proof. reflexivity. Qed.

(** *** Properties of the two plotters *)

(** C8 (as amended).  [fixed_psf_radial] builds exactly [M] field points
    whose x and y coordinates are evenly spaced over [0, 1] (point [i] is
    at [i / (M - 1)], from 0 to 1) and whose z coordinate is the depth.
    When there is at least one field point, the kernel size is at least 1,
    the lens answers every request with a [3, ks, ks] PSF and [save_image]
    can write [save_name], it requests for each point, in order, a
    recentered RGB PSF with 4096 samples, divides that PSF by its own
    maximum (and log-scales it if asked), tiles the [M] results with
    [nrow = M], padding 1 and padding value 0, saves the grid under
    [save_name] and returns [save_name]. *)
Theorem fixed_psf_radial_pipeline {L} `{Lens L} {disk : Disk} (EPSILON : R) (M : nat)
    (d : depth) (ks : nat) (log_scale : bool) (save_name : string) (w : world L) :
  length (fixed_points M d) = M /\
  (forall i, i < M ->
     fixed_points M d !! i
     = Some (FieldPoint (INR i * (1 / INR (M - 1))) (INR i * (1 / INR (M - 1))) d)%R) /\
  (INR 0 * (1 / INR (M - 1)))%R = 0%R /\
  (2 <= M -> (INR (M - 1) * (1 / INR (M - 1)))%R = 1%R) /\
  (always_succeeds L -> 0 < M -> 0 < ks -> save_error save_name = None ->
   exists raws outs w',
     fixed_psf_radial EPSILON M d ks log_scale save_name w = (Ok save_name, w') /\
     length raws = M /\
     calls w' = calls w ++ zip_with (recentered ks) (fixed_points M d) raws /\
     Forall2 (scaled EPSILON log_scale) raws outs /\
     files w' = <[save_name := ImageFile (Grid outs M 1 0%R) true]> (files w)).
Proof.
  split; [apply (points_length 1)|].
  split; [intros i Hi; by apply (points_lookup 1)|].
  split; [apply (spacing_ends 1 M)|].
  split; [apply (spacing_ends 1 M)|].
  intros Hlens HM Hks Hfree. by apply fixed_psf_radial_ok.
Qed.

Lemma fixed_psf_radial_pipeline_witness :
  exists w',
    fixed_psf_radial (disk := roomy_disk) 1e-9%R 3 Infinite 2 true "psf_radial.png"
      (fresh SteadyLens)
    = (Ok "psf_radial.png", w') /\
    length (calls w') = 3 /\
    is_Some (files w' !! "psf_radial.png").
Proof.
  destruct (fixed_psf_radial_pipeline (disk := roomy_disk) 1e-9%R 3 Infinite 2 true
              "psf_radial.png" (fresh SteadyLens))
    as (Hlen & _ & _ & _ & Hrun).
  destruct Hrun as (raws & outs & w' & Hrun & Hraws & Hcalls & _ & Hfiles).
  - apply steady_always_succeeds.
  - lia.
  - lia.
  - reflexivity.
  - exists w'. split; [exact Hrun|]. split.
    + rewrite Hcalls. cbn [fresh calls app].
      rewrite length_zip_with, Hlen, Hraws. reflexivity.
    + rewrite Hfiles. rewrite lookup_insert_eq. by eexists.
Defined.

(** C8 as first stated does not hold: on a lens that answers every
    request, [fixed_psf_radial] saves no grid and does not return the
    output path when it is asked for no field point ([make_grid] raises on
    the empty list), for kernel size 0 ([psf.max()] raises on the empty
    PSF), or for an output path in a directory that does not exist
    ([save_image] raises after all requests were made). *)
Lemma fixed_psf_radial_saves_nothing :
  fixed_psf_radial (disk := roomy_disk) 1e-9%R 0 Infinite 101 true "psf_radial.png"
    (fresh SteadyLens)
  = (Raise RuntimeError, fresh SteadyLens) /\
  (exists w',
     fixed_psf_radial (disk := roomy_disk) 1e-9%R 3 Infinite 0 true "psf_radial.png"
       (fresh SteadyLens)
     = (Raise RuntimeError, w') /\
     length (calls w') = 1 /\ files w' = ∅) /\
  (exists w',
     fixed_psf_radial (disk := bare_disk) 1e-9%R 3 Infinite 2 true "out/psf_radial.png"
       (fresh SteadyLens)
     = (Raise FileNotFoundError, w') /\
     length (calls w') = 3 /\ files w' = ∅).
Proof.
  split; [reflexivity|]. split.
  - eexists. split; [reflexivity|]. split; reflexivity.
  - destruct (fixed_psf_radial_refused (disk := bare_disk) 1e-9%R 3 Infinite 2 true
                "out/psf_radial.png" (fresh SteadyLens) FileNotFoundError)
      as (w' & Hrun & Hcalls & Hfiles);
      [apply steady_always_succeeds | lia | lia | reflexivity |].
    by exists w'.
Qed.

(** C3 (as amended).  For at least one field point: the strict plotter,
    given a lens whose PSF generation always succeeds with [3, ks, ks] PSFs,
    a kernel size of at least 1 and a [save_name] that [save_image] can
    write, writes an image file under [save_name] and returns [save_name];
    if [save_image] cannot write [save_name], the call raises the exception
    of [save_image] and writes no file; and given a lens that raises (a
    validity failure, or anything else) on the first field point, the call
    raises that very exception and writes no file. *)
Theorem strict_plotter_outcomes {L} `{Lens L} {disk : Disk} (EPSILON : R) (M : nat)
    (d : depth) (ks : nat) (log_scale : bool) (save_name : string) (w : world L) :
  0 < M ->
  (always_succeeds L -> 0 < ks -> save_error save_name = None ->
     exists w', fixed_psf_radial EPSILON M d ks log_scale save_name w = (Ok save_name, w') /\
                is_Some (files w' !! save_name)) /\
  (always_succeeds L -> 0 < ks -> forall e, save_error save_name = Some e ->
     exists w', fixed_psf_radial EPSILON M d ks log_scale save_name w = (Raise e, w') /\
                files w' = files w) /\
  (forall p0 e l',
     fixed_points M d !! 0 = Some p0 ->
     psf_rgb (lens w) p0 ks true 4096 = (Raise e, l') ->
     exists w', fixed_psf_radial EPSILON M d ks log_scale save_name w = (Raise e, w') /\
                files w' = files w).
Proof.
  intros HM. split; [|split].
  - intros Hlens Hks Hfree.
    destruct (fixed_psf_radial_ok EPSILON M d ks log_scale save_name w Hlens HM Hks Hfree)
      as (raws & outs & w' & Hrun & _ & _ & _ & Hfiles).
    exists w'. split; [done|]. rewrite Hfiles, lookup_insert_eq. by eexists.
  - intros Hlens Hks e Hfull.
    destruct (fixed_psf_radial_refused EPSILON M d ks log_scale save_name w e
                Hlens HM Hks Hfull) as (w' & Hrun & _ & Hfiles).
    by exists w'.
  - intros p0 e l' Hp Hc.
    destruct (fixed_psf_radial_raise EPSILON M d ks log_scale save_name w p0 e l' Hp Hc)
      as (w' & Hrun & _ & Hfiles).
    by exists w'.
Qed.

Lemma strict_plotter_outcomes_witness :
  (exists w', fixed_psf_radial (disk := roomy_disk) 1e-9%R 3 Infinite 2 true
                "psf_radial.png" (fresh SteadyLens)
              = (Ok "psf_radial.png", w') /\
              is_Some (files w' !! "psf_radial.png")) /\
  (exists w', fixed_psf_radial (disk := roomy_disk) 1e-9%R 3 Infinite 2 true
                "psf_radial.png" (fresh InvalidLens)
              = (Raise AssertionError, w') /\
              files w' = ∅).
Proof.
  split.
  - apply (strict_plotter_outcomes (disk := roomy_disk) 1e-9%R 3 Infinite 2 true
             "psf_radial.png" (fresh SteadyLens));
      [lia | apply steady_always_succeeds | lia | reflexivity].
  - eapply (strict_plotter_outcomes (disk := roomy_disk) 1e-9%R 3 Infinite 2 true
              "psf_radial.png" (fresh InvalidLens)); [lia | reflexivity | reflexivity].
Defined.

(** C3 as first stated does not hold: a lens whose PSF generation always
    succeeds is not enough for the strict plotter to write the image and
    return [save_name].  With [M = 0] it raises before anything is saved;
    so it does with kernel size 0; and in a directory that does not exist
    [save_image] raises and no file is written. *)
Lemma succeeding_lens_is_not_enough :
  ~ (forall (disk : Disk) (M ks : nat) (save_name : string),
       exists w',
         fixed_psf_radial (disk := disk) 1e-9%R M Infinite ks true save_name
           (fresh SteadyLens)
         = (Ok save_name, w') /\
         is_Some (files w' !! save_name)) /\
  (fixed_psf_radial (disk := roomy_disk) 1e-9%R 0 Infinite 2 true "psf_radial.png"
     (fresh SteadyLens)).1 = Raise RuntimeError /\
  (fixed_psf_radial (disk := roomy_disk) 1e-9%R 1 Infinite 0 true "psf_radial.png"
     (fresh SteadyLens)).1 = Raise RuntimeError /\
  (exists w',
     fixed_psf_radial (disk := bare_disk) 1e-9%R 1 Infinite 2 true
       "figures/psf_radial.png" (fresh SteadyLens)
     = (Raise FileNotFoundError, w') /\ files w' = ∅).
Proof.
  split; [|split; [reflexivity | split; [reflexivity|]]].
  - intros Hclaim.
    destruct (Hclaim roomy_disk 0 2 "psf_radial.png") as (w' & Hrun & _).
    discriminate Hrun.
  - destruct (fixed_psf_radial_refused (disk := bare_disk) 1e-9%R 1 Infinite 2 true
                "figures/psf_radial.png" (fresh SteadyLens) FileNotFoundError)
      as (w' & Hrun & _ & Hfiles);
      [apply steady_always_succeeds | lia | lia | reflexivity |].
    by exists w'.
Qed.

(** C1 (as amended).  For every field point of [robust_psf_radial] the
    three tiers apply in order, as [tier_of] words them: the PSF of the
    recentered request if it succeeds; if that request raises the validity
    assertion, the PSF of the request without recentering if that
    succeeds; and if the second request raises anything, the Gaussian
    placeholder: for a kernel size of at least 1, [ks] by [ks], centred, of
    standard deviation [2.0 + 1.5 * i], normalised to sum 1, the same in
    the three colour channels.  The [try] statement for field point [i]
    yields that PSF and makes exactly the requests of its tier.  And the
    whole call follows the policy point after point, the lens carried from
    one point to the next: when there is at least one field point, the
    PSFs of the policy are [3, ks, ks] and [save_image] can write
    [save_name], it returns [save_name], has made the requests of the
    policy in order, and has saved the grid of the [M] PSFs of the policy,
    each divided by its maximum (and log-scaled if asked).  On a lens whose
    recentered requests fail by the assertion only, and whose PSFs are
    [3, ks, ks], the policy yields such PSFs for all field points. *)
Theorem three_tier_fallback {L} `{Lens L} {disk : Disk} (EPSILON : R) (M : nat)
    (d : depth) (ks : nat) (log_scale : bool) (save_name : string) :
  0 < ks ->
  (forall i, exists t, placeholder ks i = Ok t /\ is_placeholder ks i t) /\
  (forall (w : world L) (p : field_point) (i : nat) t requests l',
     tier_of ks i (lens w) p t requests l' ->
     exists w', fetch_psf p ks i w = (Ok t, w') /\
                lens w' = l' /\
                calls w' = calls w ++ requests /\
                files w' = files w) /\
  (forall (w : world L) raws trace l',
     fallback_run ks 0 (lens w) (robust_points M d) raws trace l' ->
     Forall (psf_shaped ks) raws ->
     0 < M -> save_error save_name = None ->
     exists outs w',
       robust_psf_radial EPSILON M d ks log_scale save_name w = (Ok save_name, w') /\
       length outs = M /\
       Forall2 (scaled EPSILON log_scale) raws outs /\
       lens w' = l' /\
       calls w' = calls w ++ trace /\
       files w' = <[save_name := ImageFile (Grid outs M 1 0%R) true]> (files w)) /\
  (fails_by_validity_only L ->
   forall l : L, exists raws trace l',
     fallback_run ks 0 l (robust_points M d) raws trace l' /\
     Forall (psf_shaped ks) raws).
Proof.
  intros Hks. split; [|split; [|split]].
  - intros i. destruct (placeholder_spec ks i Hks) as (t & Ht & Hspec & _). by exists t.
  - intros w p i t requests l' Htier.
    destruct (fetch_follows_tier p ks i w t requests l' Htier) as [lines Hfetch].
    eexists. split; [exact Hfetch|]. done.
  - intros w raws trace l' Hrun Hshaped HM Hfree.
    destruct (robust_psf_radial_follows EPSILON M d ks log_scale save_name w raws trace l'
                HM Hks Hfree Hrun Hshaped)
      as (outs & w' & Hcall & Hsc & Hlens & Hcalls & Hfiles).
    exists outs, w'. split; [done|]. split; [|done].
    rewrite <- (Forall2_length _ _ _ Hsc), (fallback_run_length _ _ _ _ _ _ _ Hrun).
    apply (points_length 0.7).
  - intros Hlens l. by apply policy_run_exists.
Qed.

Lemma three_tier_fallback_witness :
  (exists t, placeholder 3 1 = Ok t /\ is_placeholder 3 1 t) /\
  (exists outs w',
     robust_psf_radial (disk := roomy_disk) 1e-9%R 2 (Finite 1000) 3 true "psf_radial.png"
       (fresh InvalidLens)
     = (Ok "psf_radial.png", w') /\
     length outs = 2 /\
     length (calls w') = 4 /\
     files w' = <[ "psf_radial.png" := ImageFile (Grid outs 2 1 0%R) true ]> ∅).
Proof.
  destruct (three_tier_fallback (L := invalid_lens) (disk := roomy_disk) 1e-9%R 2
              (Finite 1000) 3 true "psf_radial.png")
    as (Hplace & _ & Hcall & Hexists); [lia|].
  split; [apply Hplace|].
  destruct (Hexists invalid_fails_by_validity_only InvalidLens)
    as (raws & trace & l' & Hrun & Hshaped).
  destruct (Hcall (fresh InvalidLens) raws trace l' Hrun Hshaped)
    as (outs & w' & Hres & Hlen & _ & _ & Hcalls & Hfiles); [lia | reflexivity |].
  exists outs, w'. split; [exact Hres|]. split; [exact Hlen|]. split; [|exact Hfiles].
  rewrite Hcalls. cbn [fresh calls app].
  inversion Hrun as [|? ? p0 ps0 t0 r0 l0 ts0 tr0 ? Ht0 Hrun1]; subst.
  inversion Hrun1 as [|? ? p1 ps1 t1 r1 l1 ts1 tr1 ? Ht1 Hrun2]; subst.
  inversion Hrun2; subst.
  inversion Ht0; subst; try discriminate.
  inversion Ht1; subst; try discriminate.
  reflexivity.
Defined.

(** C1 as first stated does not hold: the call does not always produce a
    complete grid.  For kernel size 0 the placeholder has no element (its
    sum is 0, not 1) and the call raises at [psf.max()]; with [M = 0] the
    call raises at [make_grid]; and under a name in a directory that does
    not exist [save_image] raises after both tiers have failed for every
    field point.  In each case no file is written. *)
Lemma robust_grid_can_be_missing :
  (placeholder 0 0 = Ok (Tensor [3; 0; 0] []) /\
   tsum (Tensor [3; 0; 0] []) = 0%R /\
   (robust_psf_radial (disk := roomy_disk) 1e-9%R 2 (Finite 1000) 0 true "psf_radial.png"
      (fresh InvalidLens)).1 = Raise RuntimeError /\
   files (robust_psf_radial (disk := roomy_disk) 1e-9%R 2 (Finite 1000) 0 true
            "psf_radial.png" (fresh InvalidLens)).2 = ∅) /\
  robust_psf_radial (disk := roomy_disk) 1e-9%R 0 (Finite 1000) 101 true "psf_radial.png"
    (fresh InvalidLens)
  = (Raise RuntimeError, fresh InvalidLens) /\
  (exists w',
     robust_psf_radial (disk := bare_disk) 1e-9%R 2 (Finite 1000) 3 true
       "out/psf_radial.png" (fresh InvalidLens)
     = (Raise FileNotFoundError, w') /\ files w' = ∅).
Proof.
  split; [|split].
  - split; [reflexivity|]. split; [reflexivity|]. split; reflexivity.
  - reflexivity.
  - destruct (policy_run_exists (L := invalid_lens) 3 (robust_points 2 (Finite 1000))
                invalid_fails_by_validity_only) with (i := 0) (l := InvalidLens)
      as (raws & trace & l' & Hrun & Hshaped); [lia|].
    destruct (robust_psf_radial_refused (disk := bare_disk) 1e-9%R 2 (Finite 1000) 3 true
                "out/psf_radial.png" (fresh InvalidLens) raws trace l' FileNotFoundError)
      as (w' & Hres & _ & Hfiles); [lia | lia | reflexivity | exact Hrun | exact Hshaped |].
    by exists w'.
Qed.

(** C9.  In [robust_psf_radial], if the recentered request for a field
    point raises an exception that is not an assertion failure, that
    exception ends the whole call: it is the result of the call, no later
    request is made and no file is written.  And whenever the recentered
    request does not raise an assertion failure, its outcome is the outcome
    of the [try] statement, it is the only request made, and nothing is
    printed: neither the retry nor the placeholder is reached. *)
Theorem other_errors_abort {L} `{Lens L} {disk : Disk} (EPSILON : R) (M : nat)
    (d : depth) (ks : nat)
    (log_scale : bool) (save_name : string) (w wi : world L) (i : nat)
    (psfs : list (tensor R)) (p : field_point) (e : exn) (l' : L) :
  robust_iterations EPSILON M d ks log_scale i w = (Ok psfs, wi) ->
  robust_points M d !! i = Some p ->
  psf_rgb (lens wi) p ks true 4096 = (Raise e, l') ->
  is_AssertionError e = false ->
  robust_psf_radial EPSILON M d ks log_scale save_name w
  = (Raise e, World l' (calls wi ++ [Call p ks true 4096 (Raise e)]) (stdout wi) (files w)) /\
  (forall (w0 : world L) (p0 : field_point) (i0 : nat),
     (forall e0, (psf_rgb (lens w0) p0 ks true 4096).1 = Raise e0 ->
                 is_AssertionError e0 = false) ->
     (fetch_psf p0 ks i0 w0).1 = (psf_rgb (lens w0) p0 ks true 4096).1 /\
     calls (fetch_psf p0 ks i0 w0).2
     = calls w0 ++ [Call p0 ks true 4096 (psf_rgb (lens w0) p0 ks true 4096).1] /\
     stdout (fetch_psf p0 ks i0 w0).2 = stdout w0).
Proof.
  intros Hloop Hp H1 He. split.
  - by apply (robust_psf_radial_abort EPSILON M d ks log_scale save_name w wi i psfs).
  - intros w0 p0 i0 Hfirst.
    destruct (psf_rgb (lens w0) p0 ks true 4096) as [[t|e0] l1] eqn:H0; cbn [fst] in *.
    + by rewrite (fetch_first_ok _ _ i0 _ _ _ H0).
    + by rewrite (fetch_first_other _ _ i0 _ _ _ H0 (Hfirst e0 eq_refl)).
Qed.

Lemma other_errors_abort_witness :
  (robust_psf_radial (disk := roomy_disk) 1e-9%R 2 (Finite 1000) 101 true "psf_radial.png"
     (fresh BrokenLens)).1
  = Raise RuntimeError /\
  files (robust_psf_radial (disk := roomy_disk) 1e-9%R 2 (Finite 1000) 101 true
           "psf_radial.png" (fresh BrokenLens)).2 = ∅.
Proof.
  destruct (other_errors_abort (disk := roomy_disk) 1e-9%R 2 (Finite 1000) 101 true
              "psf_radial.png"
              (fresh BrokenLens) (fresh BrokenLens) 0 []
              (FieldPoint (0 + INR 0 * ((0.7 - 0) / INR (2 - 1)))
                          (0 + INR 0 * ((0.7 - 0) / INR (2 - 1))) (Finite 1000))
              RuntimeError BrokenLens) as [Hrun _].
  - reflexivity.
  - reflexivity.
  - reflexivity.
  - reflexivity.
  - rewrite Hrun. split; reflexivity.
Defined.

End PsfFacts.

Module DenormalizeMore.
Import DenormalizeFacts.

Section Dtype.
Context {A : Type} `{Scalar A}.

Lemma mean_data_lookup (s : list nat) (d : list A) (k : nat) :
  mean_data s d !! k = (fun _ => channel_mean (channel_index s k)) <$> d !! k.
Proof.
  unfold mean_data. rewrite !list_lookup_imap, list_lookup_fmap.
  destruct (d !! k) as [x|]; [|done]. cbn. f_equal.
  by destruct (channel_index s k) as [|[|[|c]]].
Qed.

Lemma std_data_lookup (s : list nat) (d : list A) (k : nat) :
  std_data s d !! k = (fun _ => channel_std (channel_index s k)) <$> d !! k.
Proof.
  unfold std_data. rewrite !list_lookup_imap, list_lookup_fmap.
  destruct (d !! k) as [x|]; [|done]. cbn. f_equal.
  by destruct (channel_index s k) as [|[|[|c]]].
Qed.

(** Every element is scaled and shifted by the constants of its channel. *)
Lemma denormalized_lookup (s : list nat) (d : list A) (k : nat) :
  zip_with add (zip_with mul d (std_data s d)) (mean_data s d) !! k
  = (fun x => add (mul x (channel_std (channel_index s k)))
                  (channel_mean (channel_index s k))) <$> d !! k.
Proof.
  rewrite !lookup_zip_with, std_data_lookup, mean_data_lookup.
  by destruct (d !! k).
Qed.

Lemma channel_index_chw (b c h w ci i j : nat) :
  ci < c -> i < h -> j < w ->
  channel_index [b; c; h; w] (chw h w ci i j) = ci.
Proof.
  intros Hc Hi Hj. unfold channel_index, chw, numel. cbn [foldr].
  rewrite Nat.mul_1_r.
  assert (Hq : ((ci * h + i) * w + j) / (h * w) = ci).
  { symmetry. apply (Nat.div_unique _ _ _ (i * w + j)); nia. }
  rewrite Hq. apply Nat.mod_small. done.
Qed.

Lemma channel_index_bchw (b c h w bi ci i j : nat) :
  ci < c -> i < h -> j < w ->
  channel_index [b; c; h; w] (bi * (c * h * w) + chw h w ci i j) = ci.
Proof.
  intros Hc Hi Hj. unfold channel_index, chw, numel. cbn [foldr].
  rewrite Nat.mul_1_r.
  assert (Hq : (bi * (c * h * w) + ((ci * h + i) * w + j)) / (h * w) = bi * c + ci).
  { symmetry. apply (Nat.div_unique _ _ _ (i * w + j)); nia. }
  rewrite Hq. symmetry. apply (Nat.mod_unique _ _ bi); lia.
Qed.

Lemma channel_index_batch (b b' c h w k : nat) :
  channel_index [b; c; h; w] k = channel_index [b'; c; h; w] k.
Proof. reflexivity. Qed.

End Dtype.

(** The elements of a denormalised batch. *)
Lemma batch_pointwise {A} `{Scalar A} (t : tensor A) (nb nc nh nw : nat) :
  shape t = [nb; nc; nh; nw] ->
  3 <= nc ->
  exists r, safe_denormalize t = Ok r /\
            shape r = [nb; nc; nh; nw] /\
            forall bi ci i j x,
              ci < nc -> i < nh -> j < nw ->
              data t !! (bi * (nc * nh * nw) + chw nh nw ci i j) = Some x ->
              data r !! (bi * (nc * nh * nw) + chw nh nw ci i j)
              = Some (add (mul x (channel_std ci)) (channel_mean ci)).
Proof.
  intros Hs Hnc.
  rewrite (safe_denormalize_batched t nb nc nh nw [] Hs Hnc).
  eexists. split; [reflexivity|]. split; [done|].
  intros bi ci i j x Hc Hi Hj Hx. cbn [data].
  rewrite denormalized_lookup, Hx, Hs, channel_index_bchw by done. reflexivity.
Qed.

(** The elements of a denormalised single image. *)
Lemma image_pointwise {A} `{Scalar A} (t : tensor A) (nc nh nw : nat) :
  shape t = [nc; nh; nw] ->
  3 <= nc ->
  exists r, safe_denormalize t = Ok r /\
            shape r = [nc; nh; nw] /\
            forall ci i j x,
              ci < nc -> i < nh -> j < nw ->
              data t !! chw nh nw ci i j = Some x ->
              data r !! chw nh nw ci i j
              = Some (add (mul x (channel_std ci)) (channel_mean ci)).
Proof.
  intros Hs Hnc.
  rewrite safe_denormalize_unbatched by (unfold dim; by rewrite Hs).
  rewrite (safe_denormalize_batched (unsqueeze0 t) 1 nc nh nw [])
    by (done || (unfold unsqueeze0; cbn; by rewrite Hs)).
  exists (Tensor [nc; nh; nw]
            (zip_with add (zip_with mul (data t) (std_data [1; nc; nh; nw] (data t)))
                      (mean_data [1; nc; nh; nw] (data t)))).
  split; [unfold unsqueeze0; cbn; by rewrite Hs|]. split; [done|].
  intros ci i j x Hc Hi Hj Hx. cbn [data].
  rewrite denormalized_lookup, Hx.
  rewrite <- (channel_index_bchw 1 nc nh nw 0 ci i j) at 1 2 by done. reflexivity.
Qed.

(** The inputs on which an indexed assignment is out of bounds. *)
Lemma raises_index_error {A} `{Scalar A} (t : tensor A) :
  dim t < 3 \/ ((dim t = 3 \/ dim t = 4) /\ channels t < 3) ->
  safe_denormalize t = Raise IndexError.
Proof.
  destruct t as [s d]. unfold dim, channels. cbn [shape].
  intros [Hd | [[Hd | Hd] Hc]].
  - destruct s as [|a [|b [|c s]]]; cbn in Hd; try lia; reflexivity.
  - destruct s as [|c [|h [|w [|? ?]]]]; try discriminate Hd.
    unfold safe_denormalize, zeros_like, set_channel, dim, unsqueeze0. cbn [shape length Nat.eqb].
    destruct c as [|[|[|c]]]; try lia; reflexivity.
  - destruct s as [|b [|c [|h [|w [|? ?]]]]]; try discriminate Hd.
    by apply (safe_denormalize_few_channels _ b c [h; w]).
Qed.

(** X1.  For a batch of shape [B, C, H, W] with at least three channels,
    element [(b, c, h, w)] of the result is the input element times
    [std[c]] plus [mean[c]], with the ImageNet constants for the channels
    0, 1 and 2. *)
Theorem denormalize_batch_pointwise {A} `{Scalar A} (t : tensor A) (nb nc nh nw : nat) :
  shape t = [nb; nc; nh; nw] ->
  3 <= nc ->
  exists r, safe_denormalize t = Ok r /\
            shape r = [nb; nc; nh; nw] /\
            forall bi ci i j x,
              ci < nc -> i < nh -> j < nw ->
              data t !! (bi * (nc * nh * nw) + chw nh nw ci i j) = Some x ->
              data r !! (bi * (nc * nh * nw) + chw nh nw ci i j)
              = Some (add (mul x (channel_std ci)) (channel_mean ci)).
Proof. apply batch_pointwise. Qed.

Lemma denormalize_batch_pointwise_witness :
  exists r, safe_denormalize (Tensor [1; 3; 1; 2] [1; 2; 3; 4; 5; 6]%float) = Ok r /\
            data r !! 3 = Some (PrimFloat.add (PrimFloat.mul 4 (lit 0.224)) (lit 0.456)).
Proof.
  destruct (denormalize_batch_pointwise (Tensor [1; 3; 1; 2] [1; 2; 3; 4; 5; 6]%float)
              1 3 1 2) as (r & Hr & _ & Hpt); [reflexivity | lia |].
  exists r. split; [exact Hr|].
  apply (Hpt 0 1 0 1 4%float); [lia | lia | lia | reflexivity].
Defined.

(** X2.  The same for a single image of shape [C, H, W]. *)
Theorem denormalize_image_pointwise {A} `{Scalar A} (t : tensor A) (nc nh nw : nat) :
  shape t = [nc; nh; nw] ->
  3 <= nc ->
  exists r, safe_denormalize t = Ok r /\
            shape r = [nc; nh; nw] /\
            forall ci i j x,
              ci < nc -> i < nh -> j < nw ->
              data t !! chw nh nw ci i j = Some x ->
              data r !! chw nh nw ci i j
              = Some (add (mul x (channel_std ci)) (channel_mean ci)).
Proof. apply image_pointwise. Qed.

Lemma denormalize_image_pointwise_witness :
  exists r, safe_denormalize (Tensor [3; 1; 2] [1; 2; 3; 4; 5; 6]%float) = Ok r /\
            data r !! 4 = Some (PrimFloat.add (PrimFloat.mul 5 (lit 0.225)) (lit 0.406)).
Proof.
  destruct (denormalize_image_pointwise (Tensor [3; 1; 2] [1; 2; 3; 4; 5; 6]%float) 3 1 2)
    as (r & Hr & _ & Hpt); [reflexivity | lia |].
  exists r. split; [exact Hr|].
  apply (Hpt 2 0 0 5%float); [lia | lia | lia | reflexivity].
Defined.

(** X3.  A tensor of rank below 3, and a tensor of rank 3 or 4 with fewer
    than three channels, make an indexed assignment raise [IndexError]:
    [safe_denormalize] does not return. *)
Theorem denormalize_raises_index_error {A} `{Scalar A} (t : tensor A) :
  dim t < 3 \/ ((dim t = 3 \/ dim t = 4) /\ channels t < 3) ->
  safe_denormalize t = Raise IndexError.
Proof. apply raises_index_error. Qed.

Lemma denormalize_raises_index_error_witness :
  safe_denormalize (Tensor [1; 2; 2] [5; 6; 7; 8]%Z) = Raise IndexError /\
  safe_denormalize (Tensor [2; 2] [5; 6; 7; 8]%Z) = Raise IndexError.
Proof.
  split.
  - apply (denormalize_raises_index_error (Tensor [1; 2; 2] [5; 6; 7; 8]%Z)).
    right. cbn. split; [by left | lia].
  - apply (denormalize_raises_index_error (Tensor [2; 2] [5; 6; 7; 8]%Z)).
    left. cbn. lia.
Defined.

(** X4.  On an all-zero batch the result holds, in every channel, that
    channel's mean, for every dtype in which [0 * std + mean = mean] for
    the constants (the reals, the integers, binary64). *)
Theorem zero_batch_gives_mean {A} `{Scalar A} (t : tensor A) (nb nc nh nw : nat) :
  shape t = [nb; nc; nh; nw] ->
  length (data t) = nb * (nc * nh * nw) ->
  3 <= nc ->
  Forall (fun x => x = zero) (data t) ->
  (forall c, add (mul zero (channel_std c)) (channel_mean c) = channel_mean c) ->
  exists r, safe_denormalize t = Ok r /\
            forall bi ci i j,
              bi < nb -> ci < nc -> i < nh -> j < nw ->
              data r !! (bi * (nc * nh * nw) + chw nh nw ci i j) = Some (channel_mean ci).
Proof.
  intros Hs Hlen Hnc Hzero Hlaw.
  destruct (batch_pointwise t nb nc nh nw Hs Hnc) as (r & Hr & _ & Hpt).
  exists r. split; [done|].
  intros bi ci i j Hb Hc Hi Hj.
  assert (Hin : bi * (nc * nh * nw) + chw nh nw ci i j < length (data t)).
  { rewrite Hlen. unfold chw.
    assert (H1 : ci * nh + i < nc * nh) by nia.
    assert (H2 : (ci * nh + i) * nw + j < nc * nh * nw) by nia.
    assert (H3 : (bi + 1) * (nc * nh * nw) <= nb * (nc * nh * nw))
      by (apply Nat.mul_le_mono_r; lia).
    lia. }
  destruct (lookup_lt_is_Some_2 _ _ Hin) as [x Hx].
  rewrite (Hpt bi ci i j x Hc Hi Hj Hx).
  rewrite Forall_forall in Hzero.
  rewrite (Hzero x) by (by apply list_elem_of_lookup_2 in Hx).
  by rewrite Hlaw.
Qed.

Lemma zero_batch_gives_mean_witness :
  exists r, safe_denormalize (Tensor [1; 3; 1; 2] [0; 0; 0; 0; 0; 0]%float) = Ok r /\
            data r !! 5 = Some (lit 0.406).
Proof.
  destruct (zero_batch_gives_mean (Tensor [1; 3; 1; 2] [0; 0; 0; 0; 0; 0]%float) 1 3 1 2)
    as (r & Hr & Hpt).
  - reflexivity.
  - reflexivity.
  - lia.
  - repeat constructor.
  - intros [|[|[|c]]]; vm_compute; reflexivity.
  - exists r. split; [exact Hr|]. apply (Hpt 0 2 0 1); lia.
Defined.

(** X5.  Denormalising the first item of a non-empty batch gives the first
    item of the denormalised batch: [vis_sample] shows of a batch what it
    would show of its first image alone. *)
Theorem denormalize_first_item {A} `{Scalar A} (t : tensor A) (nb nc nh nw : nat) :
  shape t = [S nb; nc; nh; nw] ->
  3 <= nc ->
  exists t0 r r0,
    index0 t = Ok t0 /\ safe_denormalize t = Ok r /\
    safe_denormalize t0 = Ok r0 /\ index0 r = Ok r0.
Proof.
  intros Hs Hnc. destruct t as [s d]. cbn [shape] in Hs. subst s.
  set (n := numel [nc; nh; nw]).
  exists (Tensor [nc; nh; nw] (take n d)).
  destruct (image_pointwise (Tensor [nc; nh; nw] (take n d)) nc nh nw eq_refl Hnc)
    as (r0 & Hr0 & Hs0 & _).
  rewrite (safe_denormalize_batched (Tensor [S nb; nc; nh; nw] d) (S nb) nc nh nw [])
    by done.
  eexists. exists r0. split; [reflexivity|]. split; [reflexivity|]. split; [done|].
  rewrite safe_denormalize_unbatched in Hr0 by reflexivity.
  rewrite (safe_denormalize_batched (unsqueeze0 (Tensor [nc; nh; nw] (take n d)))
             1 nc nh nw []) in Hr0 by done.
  injection Hr0 as <-. unfold index0, squeeze0, unsqueeze0.
  cbn [shape data Nat.eqb]. fold n.
  do 2 f_equal. apply list_eq. intros k.
  rewrite lookup_take, !denormalized_lookup, lookup_take.
  by destruct (decide (k < n)).
Qed.

Lemma denormalize_first_item_witness :
  exists t0 r r0,
    index0 (Tensor [2; 3; 1; 1] [1; 2; 3; 4; 5; 6]%Z) = Ok t0 /\
    safe_denormalize (Tensor [2; 3; 1; 1] [1; 2; 3; 4; 5; 6]%Z) = Ok r /\
    safe_denormalize t0 = Ok r0 /\ index0 r = Ok r0.
Proof.
  apply (denormalize_first_item (Tensor [2; 3; 1; 1] [1; 2; 3; 4; 5; 6]%Z) 1 3 1 1).
  - reflexivity.
  - lia.
Defined.

End DenormalizeMore.

Module VisSampleFacts.
Import DenormalizeFacts DenormalizeMore.

Lemma chw_bound (c h w ci i j : nat) :
  ci < c -> i < h -> j < w -> chw h w ci i j < c * h * w.
Proof.
  intros Hc Hi Hj. unfold chw.
  assert (H1 : ci * h + i < c * h) by nia. nia.
Qed.

Lemma hwc_bound (c h w ci i j : nat) :
  ci < c -> i < h -> j < w -> hwc w c i j ci < h * w * c.
Proof.
  intros Hc Hi Hj. unfold hwc.
  assert (H1 : i * w + j < h * w) by nia. nia.
Qed.

(** [permute(1, 2, 0)] moves element [(c, h, w)] to [(h, w, c)]. *)
Lemma permute120_lookup {A} `{Scalar A} (r : tensor A) (c h w ci i j : nat) (v : A) :
  shape r = [c; h; w] ->
  ci < c -> i < h -> j < w ->
  data r !! chw h w ci i j = Some v ->
  exists img, permute120 r = Ok img /\ shape img = [h; w; c] /\
              data img !! hwc w c i j ci = Some v.
Proof.
  intros Hs Hc Hi Hj Hv. unfold permute120. rewrite Hs.
  eexists. split; [reflexivity|]. split; [done|]. cbn [data].
  change (map ?f ?l) with (f <$> l).
  rewrite list_lookup_fmap, lookup_seq_lt by by apply hwc_bound.
  cbn. f_equal. apply nth_lookup_Some.
  assert (Hm : hwc w c i j ci mod c = ci).
  { unfold hwc. symmetry. apply (Nat.mod_unique _ _ (i * w + j)); lia. }
  assert (Hq : hwc w c i j ci / c = i * w + j).
  { unfold hwc. symmetry. apply (Nat.div_unique _ _ _ ci); lia. }
  rewrite Hm, Hq.
  replace (ci * (h * w) + (i * w + j)) with (chw h w ci i j) by (unfold chw; lia).
  done.
Qed.

(** The image of a subplot, element by element. *)
Lemma displayed_spec {A} `{Scalar A} (t : tensor A) (nc nh nw : nat) :
  image_of t nc nh nw ->
  3 <= nc ->
  exists img, displayed t = Ok img /\
              shape img = [nh; nw; nc] /\
              forall ci i j x,
                ci < nc -> i < nh -> j < nw ->
                data t !! chw nh nw ci i j = Some x ->
                data img !! hwc nw nc i j ci
                = Some (add (mul x (channel_std ci)) (channel_mean ci)).
Proof.
  intros Himg Hnc.
  assert (Hfirst : exists t0,
            (if dim t =? 4 then index0 t else Ok t) = Ok t0 /\
            shape t0 = [nc; nh; nw] /\
            forall k, k < nc * nh * nw -> data t0 !! k = data t !! k).
  { destruct Himg as [Hs | [b Hs]].
    - exists t. unfold dim. rewrite Hs. by repeat split.
    - eexists. unfold dim, index0. rewrite Hs. cbn [length Nat.eqb].
      split; [reflexivity|]. split; [done|].
      intros k Hk. cbn [data]. apply lookup_take_lt.
      unfold numel. cbn [foldr]. lia. }
  destruct Hfirst as (t0 & Hpick & Hs0 & Hdata).
  destruct (image_pointwise t0 nc nh nw Hs0 Hnc) as (r & Hr & Hsr & Hpt).
  assert (Hperm : exists img, permute120 r = Ok img /\ shape img = [nh; nw; nc]).
  { unfold permute120. rewrite Hsr. eexists. by split. }
  destruct Hperm as (img & Himg' & Hsi).
  exists img. unfold displayed. rewrite Hpick. cbn [mbind result_bind]. rewrite Hr.
  cbn [mbind result_bind]. split; [done|]. split; [done|].
  intros ci i j x Hc Hi Hj Hx.
  rewrite <- Hdata in Hx by by apply chw_bound.
  destruct (permute120_lookup r nc nh nw ci i j _ Hsr Hc Hi Hj (Hpt ci i j x Hc Hi Hj Hx))
    as (img2 & Himg2 & _ & Hv).
  rewrite Himg' in Himg2. by injection Himg2 as <-.
Qed.

(** X6.  What a subplot shows of an image with at least three channels,
    alone or first of a non-empty batch: a channel-last image of the same
    height and width, whose pixel [(h, w, c)] is the input element
    [(c, h, w)] times [std[c]] plus [mean[c]]. *)
Theorem displayed_pixels {A} `{Scalar A} (t : tensor A) (nc nh nw : nat) :
  image_of t nc nh nw ->
  3 <= nc ->
  exists img, displayed t = Ok img /\
              shape img = [nh; nw; nc] /\
              forall ci i j x,
                ci < nc -> i < nh -> j < nw ->
                data t !! chw nh nw ci i j = Some x ->
                data img !! hwc nw nc i j ci
                = Some (add (mul x (channel_std ci)) (channel_mean ci)).
Proof. apply displayed_spec. Qed.

Lemma displayed_pixels_witness :
  exists img, displayed (Tensor [2; 3; 1; 2] [1; 2; 3; 4; 5; 6; 7; 8; 9; 10; 11; 12]%float)
              = Ok img /\
              shape img = [1; 2; 3] /\
              data img !! 4 = Some (PrimFloat.add (PrimFloat.mul 4 (lit 0.224)) (lit 0.456)).
Proof.
  destruct (displayed_pixels
              (Tensor [2; 3; 1; 2] [1; 2; 3; 4; 5; 6; 7; 8; 9; 10; 11; 12]%float) 3 1 2)
    as (img & Himg & Hs & Hpt).
  - right. by exists 1.
  - lia.
  - exists img. split; [exact Himg|]. split; [exact Hs|].
    apply (Hpt 1 0 1 4%float); [lia | lia | lia | reflexivity].
Defined.





(** X8.  If the first argument is an empty batch, a tensor of rank below
    3, or an image or batch with fewer than three channels, [vis_sample]
    raises [IndexError] before anything is drawn or shown. *)
Theorem vis_sample_bad_original {A} `{Scalar A} {Loss : Type}
    (img_org img_render img_rec : tensor A)
    (loss : option Loss) (epoch batch : option Z) :
  (exists nc nh nw, shape img_org = [0; nc; nh; nw]) \/
  dim img_org < 3 \/
  (exists nc nh nw, image_of img_org nc nh nw /\ nc < 3) ->
  vis_sample img_org img_render img_rec loss epoch batch
  = (Raise IndexError, Figure [] None false).
Proof.
  intros Hbad.
  assert (Hd : displayed img_org = Raise IndexError).
  { unfold displayed. destruct Hbad as [(nc & nh & nw & Hs) | [Hd | (nc & nh & nw & Hi & Hc)]].
    - unfold dim, index0. by rewrite Hs.
    - destruct (Nat.eqb_spec (dim img_org) 4) as [E|_]; [lia|].
      cbn [mbind result_bind].
      rewrite raises_index_error by by left. done.
    - destruct Hi as [Hs | [b Hs]].
      + unfold dim. rewrite Hs. cbn [length Nat.eqb mbind result_bind].
        rewrite raises_index_error; [done|].
        right. unfold dim, channels. rewrite Hs. split; [by left | done].
      + unfold dim, index0. rewrite Hs. cbn [length Nat.eqb mbind result_bind].
        rewrite raises_index_error; [done|].
        right. unfold dim, channels. cbn [shape length]. split; [by left | done]. }
  unfold vis_sample, draw. by rewrite Hd.
Qed.

Lemma vis_sample_bad_original_witness :
  vis_sample (Tensor [0; 3; 2; 2] []) (Tensor [3; 1; 1] [1; 2; 3]%Z)
             (Tensor [3; 1; 1] [1; 2; 3]%Z) (@None Q) None None
  = (Raise IndexError, Figure [] None false).
Proof.
  apply (vis_sample_bad_original (Tensor [0; 3; 2; 2] [])).
  left. by exists 3, 2, 2.
Defined.

End VisSampleFacts.

Module NotebookMore.
Import NotebookFacts.

(** X9.  A notebook without cells: the backup is written and announced,
    then [notebook['cells'][0]] raises [IndexError]; the notebook file is
    left as it was and nothing else is printed. *)
Theorem empty_notebook_aborts (w : world) (doc : document) :
  files w !! NOTEBOOK_PATH = Some doc ->
  doc_cells doc = [] ->
  (fix_notebook w).1 = Raise IndexError /\
  files (fix_notebook w).2 !! backup_path = Some doc /\
  files (fix_notebook w).2 !! NOTEBOOK_PATH = Some doc /\
  stdout (fix_notebook w).2 = stdout w ++ ["Created backup at " +:+ backup_path].
Proof.
  intros Hf Hc.
  destruct (fix_notebook_no_cells w doc Hf Hc) as [Hr Hfiles].
  split; [done|]. rewrite Hfiles.
  split; [apply lookup_insert_eq|].
  split; [by rewrite lookup_insert_ne by (apply not_eq_sym, paths_differ)|].
  unfold fix_notebook. rewrite Hf. destruct doc as [cs other].
  cbn [doc_cells] in Hc. by subst cs.
Qed.

Lemma empty_notebook_aborts_witness :
  (fix_notebook (world_of [])).1 = Raise IndexError /\
  files (fix_notebook (world_of [])).2 !! backup_path
  = Some (Document [] [("nbformat", "4")]) /\
  files (fix_notebook (world_of [])).2 !! NOTEBOOK_PATH
  = Some (Document [] [("nbformat", "4")]) /\
  stdout (fix_notebook (world_of [])).2 = [] ++ ["Created backup at " +:+ backup_path].
Proof.
  apply (empty_notebook_aborts (world_of []) (Document [] [("nbformat", "4")])).
  - apply lookup_singleton_eq.
  - reflexivity.
Defined.

(** X10.  The document written back: the other keys of the notebook are
    kept; positions 1 and 2 hold the import cell and the dataset-path cell;
    the input cell at position [i] is at position [new_position i] (0 for
    the first, [i + 2] for the others), rewritten if it is a training cell
    and untouched otherwise; and no file but the notebook and its backup is
    written. *)
Theorem patched_document (w : world) (doc : document) (c0 : cell) (rest : list cell) :
  files w !! NOTEBOOK_PATH = Some doc ->
  doc_cells doc = c0 :: rest ->
  exists doc',
    files (fix_notebook w).2 !! NOTEBOOK_PATH = Some doc' /\
    doc_other doc' = doc_other doc /\
    doc_cells doc' !! 1 = Some import_cell /\
    doc_cells doc' !! 2 = Some dataset_path_cell /\
    (forall i c, doc_cells doc !! i = Some c ->
                 doc_cells doc' !! new_position i = Some (patch_cell c)) /\
    (forall i c, doc_cells doc !! i = Some c -> is_train_cell c = false ->
                 doc_cells doc' !! new_position i = Some c) /\
    (forall path, path <> NOTEBOOK_PATH -> path <> backup_path ->
                  files (fix_notebook w).2 !! path = files w !! path).
Proof.
  intros Hf Hc.
  destruct (fix_notebook_files w doc c0 rest Hf Hc) as [_ Hfiles].
  eexists. split; [rewrite Hfiles; apply lookup_insert_eq|].
  cbn [doc_cells doc_other]. split; [done|]. split; [done|]. split; [done|].
  split; [|split].
  - intros i c Hi. rewrite Hc in Hi. by apply reassembled_lookup.
  - intros i c Hi Hn. rewrite Hc in Hi.
    pose proof (reassembled_lookup c0 rest i c Hi) as R.
    by rewrite (patch_other_cell c Hn) in R.
  - intros path H1 H2. rewrite Hfiles.
    by rewrite !lookup_insert_ne by done.
Qed.

Lemma patched_document_witness :
  exists doc',
    files (fix_notebook (world_of [title_cell; train_cell; notes_cell])).2 !! NOTEBOOK_PATH
    = Some doc' /\
    doc_cells doc' !! 1 = Some import_cell /\
    doc_cells doc' !! 2 = Some dataset_path_cell /\
    doc_cells doc' !! 4 = Some notes_cell.
Proof.
  destruct (patched_document (world_of [title_cell; train_cell; notes_cell])
              (Document [title_cell; train_cell; notes_cell] [("nbformat", "4")])
              title_cell [train_cell; notes_cell])
    as (doc' & Hdoc & _ & H1 & H2 & _ & Hsame & _).
  - apply lookup_singleton_eq.
  - reflexivity.
  - exists doc'. split; [exact Hdoc|]. split; [exact H1|]. split; [exact H2|].
    apply (Hsame 2 notes_cell); reflexivity.
Defined.

Lemma new_cells_are_kept :
  patch_cell import_cell = import_cell /\ patch_cell dataset_path_cell = dataset_path_cell.
Proof. split; reflexivity. Qed.

(** X11.  The patcher is not idempotent.  A second run on a notebook with
    at least one cell overwrites the backup with the already patched
    document, so the original is lost, and inserts the two cells once
    more: the notebook then has four cells more than the original, with
    the import cell at positions 1 and 3 and the dataset-path cell at
    positions 2 and 4. *)
Theorem second_run (w : world) (doc : document) (c0 : cell) (rest : list cell) :
  files w !! NOTEBOOK_PATH = Some doc ->
  doc_cells doc = c0 :: rest ->
  let w1 := (fix_notebook w).2 in
  let w2 := (fix_notebook w1).2 in
  exists doc1 doc2,
    files w1 !! NOTEBOOK_PATH = Some doc1 /\
    (fix_notebook w1).1 = Ok () /\
    files w2 !! backup_path = Some doc1 /\
    doc1 <> doc /\
    files w2 !! NOTEBOOK_PATH = Some doc2 /\
    length (doc_cells doc2) = length (doc_cells doc) + 4 /\
    doc_cells doc2 !! 1 = Some import_cell /\
    doc_cells doc2 !! 2 = Some dataset_path_cell /\
    doc_cells doc2 !! 3 = Some import_cell /\
    doc_cells doc2 !! 4 = Some dataset_path_cell.
Proof.
  intros Hf Hc w1 w2.
  destruct (fix_notebook_files w doc c0 rest Hf Hc) as [_ Hfiles1].
  set (doc1 := Document (patch_cell c0 :: import_cell :: dataset_path_cell
                           :: map patch_cell rest) (doc_other doc)) in *.
  assert (Hf1 : files w1 !! NOTEBOOK_PATH = Some doc1).
  { unfold w1. rewrite Hfiles1. apply lookup_insert_eq. }
  destruct (fix_notebook_files w1 doc1 (patch_cell c0)
              (import_cell :: dataset_path_cell :: map patch_cell rest) Hf1 eq_refl)
    as [Hok2 Hfiles2].
  exists doc1. eexists. split; [done|]. split; [done|].
  split; [unfold w2; rewrite Hfiles2, lookup_insert_ne by apply paths_differ;
          apply lookup_insert_eq|].
  split.
  { intros E. apply (f_equal (fun d => length (doc_cells d))) in E.
    rewrite Hc in E. cbn in E. rewrite length_map in E. lia. }
  split; [unfold w2; rewrite Hfiles2; apply lookup_insert_eq|].
  cbn [doc_cells doc_other map length]. rewrite Hc. cbn [length].
  rewrite !length_map. split; [lia|].
  destruct new_cells_are_kept as [-> ->]. done.
Qed.

Lemma second_run_witness :
  exists doc1 doc2,
    files (fix_notebook (world_of [title_cell; train_cell])).2 !! NOTEBOOK_PATH = Some doc1 /\
    files (fix_notebook (fix_notebook (world_of [title_cell; train_cell])).2).2 !! backup_path
    = Some doc1 /\
    files (fix_notebook (fix_notebook (world_of [title_cell; train_cell])).2).2
      !! NOTEBOOK_PATH = Some doc2 /\
    length (doc_cells doc2) = 2 + 4.
Proof.
  destruct (second_run (world_of [title_cell; train_cell])
              (Document [title_cell; train_cell] [("nbformat", "4")])
              title_cell [train_cell])
    as (doc1 & doc2 & H1 & _ & Hb & _ & H2 & Hlen & _).
  - apply lookup_singleton_eq.
  - reflexivity.
  - exists doc1, doc2. by repeat split.
Defined.

(** *** [str.replace] *)

Lemma replace_from_skip (old new pre s : string) :
  replace_from old new (String.length pre) (pre +:+ s) = replace_from old new 0 s.
Proof.
  induction pre as [|c pre IH]; cbn [String.length String.append replace_from].
  - by destruct s.
  - exact IH.
Qed.

Lemma replace_from_cons (old new : string) (c : Ascii.ascii) (s : string) :
  replace_from old new 0 (String c s)
  = if String.prefix old (String c s)
    then new +:+ replace_from old new (String.length old - 1) s
    else String c (replace_from old new 0 s).
Proof. reflexivity. Qed.

(** X12.  The replacement scans from left to right without overlap: an
    occurrence of the (non-empty) old name at the head of the text is
    replaced and the scan resumes behind it; a character at which the old
    name does not start is kept; and a text without the old name is not
    changed. *)
Theorem str_replace_scan (old new : string) :
  old <> EmptyString ->
  (forall s, str_replace old new (old +:+ s) = new +:+ str_replace old new s) /\
  (forall c s, String.prefix old (String c s) = false ->
               str_replace old new (String c s) = String c (str_replace old new s)) /\
  (forall s, str_in old s = false -> str_replace old new s = s).
Proof.
  intros Hne. split; [|split].
  - intros s. destruct old as [|c old]; [done|].
    unfold str_replace. change (String c old +:+ s) with (String c (old +:+ s)).
    assert (Hp : String.prefix (String c old) (String c (old +:+ s)) = true)
      by (apply prefix_spec; by exists s).
    rewrite replace_from_cons, Hp.
    replace (String.length (String c old) - 1) with (String.length old)
      by (cbn [String.length]; lia).
    by rewrite replace_from_skip.
  - intros c s Hp. unfold str_replace. by rewrite replace_from_cons, Hp.
  - intros s. apply replace_absent.
Qed.

Lemma str_replace_scan_witness :
  str_replace "denormalize_ImageNet" "safe_denormalize"
    ("denormalize_ImageNet" +:+ "(img)")
  = "safe_denormalize" +:+ str_replace "denormalize_ImageNet" "safe_denormalize" "(img)".
Proof.
  apply (str_replace_scan "denormalize_ImageNet" "safe_denormalize"). discriminate.
Defined.

Lemma str_in_prefix (pat s : string) : str_in pat (pat +:+ s) = true.
Proof. apply str_in_spec. by exists EmptyString, s. Qed.

Lemma str_in_further (pat s : string) (c : Ascii.ascii) :
  str_in pat s = true -> str_in pat (String c s) = true.
Proof.
  intros (a & b & ->)%str_in_spec. apply str_in_spec. by exists (String c a), b.
Qed.

(** X13.  A line of a training cell that names the old helper, and is not
    replaced by the path assignment, names the new helper afterwards. *)
Theorem rewritten_line_names_new_helper (line : string) :
  names_old_helper line ->
  ~ needs_new_path line ->
  str_in "safe_denormalize" (rewrite_line line) = true.
Proof.
  unfold names_old_helper, needs_new_path. intros Hold Hpath.
  rewrite rewrite_line_name; [|by destruct (str_in "DIV2K_PATH" line),
                                 (str_in "/nas1/DIV2K" line); tauto | done].
  clear Hpath. unfold str_replace.
  induction line as [|c line IH]; [done|].
  rewrite replace_from_cons.
  destruct (String.prefix "denormalize_ImageNet" (String c line)) eqn:Hp.
  - apply str_in_prefix.
  - apply str_in_further, IH.
    cbn [str_in] in Hold. rewrite Hp in Hold. done.
Qed.

Lemma rewritten_line_names_new_helper_witness :
  str_in "safe_denormalize" (rewrite_line "    img = denormalize_ImageNet(img_org)") = true.
Proof.
  apply (rewritten_line_names_new_helper "    img = denormalize_ImageNet(img_org)").
  - reflexivity.
  - intros [H1 _]. vm_compute in H1. discriminate H1.
Defined.

End NotebookMore.

Module PsfMore.
Import Psf PsfExtra PsfFacts.

(** *** Files are written at the very end only *)

Section Files.
Context {L : Type} `{Lens L} {disk : Disk}.
Variable EPSILON : R.

Lemma fixed_body_files (points : list field_point) (ks : nat) (log_scale : bool)
    (i : nat) (psfs : list (tensor R)) (w : world L) :
  files (fixed_body EPSILON points ks log_scale i psfs w).2 = files w.
Proof.
  unfold fixed_body, index, lift, call_psf_rgb, mbind, prog_bind.
  destruct (points !! i) as [p|]; [|done].
  destruct (psf_rgb (lens w) p ks true 4096) as [[t|e] l1]; [|done].
  by destruct (scale_psf EPSILON log_scale t).
Qed.

(** The tail of both plotters writes [save_name] if it returns, and
    nothing if it raises. *)
Lemma tile_and_save_files (psfs : list (tensor R)) (M : nat) (save_name : string)
    (w : world L) :
  match tile_and_save psfs M save_name w with
  | (Ok name, w') =>
      name = save_name /\
      files w' = <[save_name := ImageFile (Grid psfs M 1 0%R) true]> (files w)
  | (Raise _, w') => files w' = files w
  end.
Proof.
  unfold tile_and_save, lift, make_grid, mbind at 1, prog_bind.
  destruct (stack psfs) as [g|e]; cbn [mbind result_bind mret result_ret]; [|done].
  unfold mbind at 1, prog_bind, save_image.
  by destruct (save_error save_name).
Qed.

(** A loop that keeps the files, followed by the tail. *)
Lemma plot_files (body : nat -> list (tensor R) -> prog L (list (tensor R)))
    (M : nat) (save_name : string) (w : world L) (r : result string) (w' : world L) :
  (forall i acc w, files (body i acc w).2 = files w) ->
  (psfs ← for_each body (seq 0 M) []; tile_and_save psfs M save_name) w = (r, w') ->
  match r with
  | Ok name =>
      name = save_name /\
      exists psfs, files w' = <[save_name := ImageFile (Grid psfs M 1 0%R) true]> (files w)
  | Raise _ => files w' = files w
  end.
Proof.
  intros Hbody. unfold mbind, prog_bind.
  pose proof (for_each_files body (seq 0 M) Hbody [] w) as Hloop.
  destruct (for_each body (seq 0 M) [] w) as [[psfs|e] w1]; cbn [snd] in Hloop.
  - pose proof (tile_and_save_files psfs M save_name w1) as Htail.
    destruct (tile_and_save psfs M save_name w1) as [[name|e] w2]; intros [= <- <-].
    + destruct Htail as [-> Hf]. split; [done|]. exists psfs. by rewrite Hf, Hloop.
    + by rewrite Htail.
  - by intros [= <- <-].
Qed.

End Files.

(** X14.  Either plotter writes at most the one file [save_name], and only
    when it returns: if the call raises, for whatever reason, the files are
    exactly as before; if it returns, it returns [save_name] and that file
    holds a grid tiled with [nrow = M], padding 1 and padding value 0,
    saved with [normalize=True]; every other file is untouched. *)
Theorem plotters_write_only_on_success {L} `{Lens L} {disk : Disk} (EPSILON : R)
    (M : nat) (d : depth)
    (ks : nat) (log_scale : bool) (save_name : string) (w : world L) :
  let outcome r w' :=
    match r with
    | Ok name =>
        name = save_name /\
        exists psfs : list (tensor R),
          files w' = <[save_name := ImageFile (Grid psfs M 1 0%R) true]> (files w)
    | Raise _ => files w' = files w
    end in
  outcome (fixed_psf_radial EPSILON M d ks log_scale save_name w).1
          (fixed_psf_radial EPSILON M d ks log_scale save_name w).2 /\
  outcome (robust_psf_radial EPSILON M d ks log_scale save_name w).1
          (robust_psf_radial EPSILON M d ks log_scale save_name w).2.
Proof.
  cbn zeta. split.
  - apply (plot_files (fixed_body EPSILON (fixed_points M d) ks log_scale)
             M save_name w _ _ (fixed_body_files EPSILON _ _ _)).
    unfold fixed_psf_radial. apply surjective_pairing.
  - apply (plot_files (robust_body EPSILON (robust_points M d) ks log_scale)
             M save_name w _ _ (robust_body_files EPSILON _ _ _)).
    unfold robust_psf_radial. apply surjective_pairing.
Qed.

(** X15.  With [M = 0] neither plotter asks the lens anything, and both
    raise [RuntimeError] when [make_grid] stacks the empty list; nothing is
    written or printed. *)
Theorem no_field_points {L} `{Lens L} {disk : Disk} (EPSILON : R) (d : depth) (ks : nat)
    (log_scale : bool) (save_name : string) (w : world L) :
  fixed_psf_radial EPSILON 0 d ks log_scale save_name w = (Raise RuntimeError, w) /\
  robust_psf_radial EPSILON 0 d ks log_scale save_name w = (Raise RuntimeError, w).
Proof. split; reflexivity. Qed.

(** X16.  The strict plotter stops at the first field point whose request
    raises, wherever it is: the exception is the result of the call, the
    failed request is the last one made, and no file is written. *)
Theorem strict_plotter_aborts {L} `{Lens L} {disk : Disk} (EPSILON : R) (M : nat)
    (d : depth) (ks : nat)
    (log_scale : bool) (save_name : string) (w wi : world L) (i : nat)
    (psfs : list (tensor R)) (p : field_point) (e : exn) (l' : L) :
  fixed_iterations EPSILON M d ks log_scale i w = (Ok psfs, wi) ->
  fixed_points M d !! i = Some p ->
  psf_rgb (lens wi) p ks true 4096 = (Raise e, l') ->
  fixed_psf_radial EPSILON M d ks log_scale save_name w
  = (Raise e, World l' (calls wi ++ [Call p ks true 4096 (Raise e)]) (stdout wi) (files w)).
Proof.
  intros Hloop Hp H1.
  pose proof (points_length 1 M d) as Hlen. fold (fixed_points M d) in Hlen.
  assert (Hi : i < M) by (rewrite <- Hlen; by apply (lookup_lt_Some _ _ p)).
  assert (Hfiles : files wi = files w).
  { pose proof (for_each_files (fixed_body EPSILON (fixed_points M d) ks log_scale)
                  (seq 0 i) (fixed_body_files EPSILON _ _ _) [] w) as Hf.
    unfold fixed_iterations in Hloop. rewrite Hloop in Hf. done. }
  unfold fixed_psf_radial.
  replace (seq 0 M) with (seq 0 i ++ i :: seq (S i) (M - S i)).
  2:{ rewrite cons_seq, <- seq_app. f_equal. lia. }
  erewrite bind_raise; [reflexivity|].
  rewrite (for_each_app _ _ _ _ _ _ _ Hloop).
  rewrite (for_each_raise _ _ _ _ _ _ _ (fixed_body_raise EPSILON _ _ _ _ _ _ _ _ _ Hp H1)).
  by rewrite Hfiles.
Qed.

Lemma strict_plotter_aborts_witness :
  (fixed_psf_radial (disk := roomy_disk) 1e-9%R 3 Infinite 5 true "psf_radial.png"
     (fresh BrokenLens)).1
  = Raise RuntimeError.
Proof.
  rewrite (strict_plotter_aborts (disk := roomy_disk) 1e-9%R 3 Infinite 5 true
             "psf_radial.png"
             (fresh BrokenLens) (fresh BrokenLens) 0 []
             (FieldPoint (0 + INR 0 * ((1 - 0) / INR (3 - 1)))
                         (0 + INR 0 * ((1 - 0) / INR (3 - 1))) Infinite)
             RuntimeError BrokenLens); reflexivity.
Defined.

(** *** Scaling *)

(** X17.  Without log scale, a PSF with a positive maximum comes out with
    the same shape, its greatest value 1 and no value above 1; if no value
    of the PSF is negative, none of the image is. *)
Theorem normalized_peak_is_one (EPSILON : R) (t : tensor R) (m : R) :
  tmax t = Ok m ->
  (0 < m)%R ->
  exists out, scale_psf EPSILON false t = Ok out /\
              shape out = shape t /\
              tmax out = Ok 1%R /\
              (forall x, In x (data out) -> (x <= 1)%R) /\
              ((forall x, In x (data t) -> (0 <= x)%R) ->
               forall x, In x (data out) -> (0 <= x)%R).
Proof.
  intros Hm Hpos.
  exists (tmap (fun x => (x / m)%R) t).
  split; [unfold scale_psf, normalize_max; by rewrite Hm|].
  split; [done|].
  assert (Hinv : (0 < / m)%R) by by apply Rinv_0_lt_compat.
  assert (Hmax : is_max (data (tmap (fun x => (x / m)%R) t)) 1%R).
  { replace 1%R with (m / m)%R by (field; lra).
    apply (is_max_map (fun x => (x / m)%R)); [|by apply tmax_spec].
    intros x _ Hx. unfold Rdiv. apply Rmult_le_compat_r; lra. }
  split; [by apply tmax_spec|]. split; [apply Hmax|].
  intros Hnn x (y & <- & Hy)%in_map_iff.
  unfold Rdiv. apply Rmult_le_pos; [by apply Hnn | lra].
Qed.

Lemma normalized_peak_is_one_witness :
  exists out, scale_psf 1e-9%R false (Tensor [3; 1; 1] [0.5; 4; 2]%R) = Ok out /\
              tmax out = Ok 1%R.
Proof.
  destruct (normalized_peak_is_one 1e-9%R (Tensor [3; 1; 1] [0.5; 4; 2]%R) 4%R)
    as (out & Hout & _ & Hmax & _).
  - apply tmax_spec. split; [by right; left | intros y [<-|[<-|[<-|[]]]]; cbn; lra].
  - lra.
  - by exists out.
Defined.

(** X18.  The image does not depend on the brightness of the PSF: a PSF
    with a non-zero maximum and the same PSF multiplied by a positive
    factor are scaled to the same image, with or without log scale. *)
Theorem brightness_invariance (EPSILON : R) (log_scale : bool) (c : R) (t : tensor R)
    (m : R) :
  (0 < c)%R ->
  tmax t = Ok m ->
  m <> 0%R ->
  scale_psf EPSILON log_scale (brighten c t) = scale_psf EPSILON log_scale t.
Proof.
  intros Hc Hm Hm0.
  assert (Hcm : tmax (brighten c t) = Ok (c * m)%R).
  { apply tmax_spec. apply (is_max_map (fun x => (c * x)%R)); [|by apply tmax_spec].
    intros x _ Hx. apply Rmult_le_compat_l; lra. }
  assert (Hn : normalize_max (brighten c t) = normalize_max t).
  { unfold normalize_max. rewrite Hcm, Hm. cbn [mbind result_bind mret result_ret].
    unfold brighten, tmap. cbn [shape data]. do 2 f_equal.
    rewrite map_map. apply map_ext. intros x. field. lra. }
  unfold scale_psf. by rewrite Hn.
Qed.

Lemma brightness_invariance_witness :
  scale_psf 1e-9%R true (brighten 3 (Tensor [3; 1; 1] [0.5; 4; 2]%R))
  = scale_psf 1e-9%R true (Tensor [3; 1; 1] [0.5; 4; 2]%R).
Proof.
  apply (brightness_invariance 1e-9%R true 3%R (Tensor [3; 1; 1] [0.5; 4; 2]%R) 4%R).
  - lra.
  - apply tmax_spec. split; [by right; left | intros y [<-|[<-|[<-|[]]]]; cbn; lra].
  - lra.
Defined.

(** *** The robust plotter *)

(** X19.  The robust plotter builds exactly [M] field points, evenly
    spaced over the narrower range [0, 0.7] in x and y (point [i] at
    [0.7 * i / (M - 1)], the first at 0, the last at 0.7), all at the
    given depth. *)
Theorem robust_points_spacing (M : nat) (d : depth) :
  length (robust_points M d) = M /\
  (forall i, i < M ->
     robust_points M d !! i
     = Some (FieldPoint (INR i * (0.7 / INR (M - 1))) (INR i * (0.7 / INR (M - 1))) d)%R) /\
  (INR 0 * (0.7 / INR (M - 1)))%R = 0%R /\
  (2 <= M -> (INR (M - 1) * (0.7 / INR (M - 1)))%R = 0.7%R).
Proof.
  split; [apply (points_length 0.7)|].
  split; [intros i Hi; by apply (points_lookup 0.7)|].
  apply (spacing_ends 0.7 M).
Qed.

Lemma robust_points_spacing_witness :
  length (robust_points 3 (Finite 1000)) = 3 /\
  robust_points 3 (Finite 1000) !! 2
  = Some (FieldPoint (INR 2 * (0.7 / INR (3 - 1))) (INR 2 * (0.7 / INR (3 - 1)))
            (Finite 1000))%R /\
  (INR (3 - 1) * (0.7 / INR (3 - 1)))%R = 0.7%R.
Proof.
  destruct (robust_points_spacing 3 (Finite 1000)) as (Hlen & Hpt & _ & Hlast).
  split; [exact Hlen|]. split; [apply Hpt; lia | apply Hlast; lia].
Defined.

Section RobustMore.
Context {L : Type} `{Lens L}.
Variable EPSILON : R.

Lemma for_each_ext {A} (body1 body2 : nat -> A -> prog L A) (l : list nat) :
  (forall i acc w, body1 i acc w = body2 i acc w) ->
  forall acc w, for_each body1 l acc w = for_each body2 l acc w.
Proof.
  intros Hext. induction l as [|i l IH]; intros acc w; [done|].
  cbn [for_each]. unfold mbind, prog_bind. rewrite Hext.
  destruct (body2 i acc w) as [[acc'|e] w1]; [apply IH | done].
Qed.

(** On a lens that never fails the [try] statement is the plain request. *)
Lemma robust_body_is_fixed (points : list field_point) (ks : nat) (log_scale : bool)
    (i : nat) (psfs : list (tensor R)) (w : world L) :
  always_succeeds L ->
  robust_body EPSILON points ks log_scale i psfs w
  = fixed_body EPSILON points ks log_scale i psfs w.
Proof.
  intros Hlens. unfold robust_body, fixed_body, index, lift.
  unfold mbind at 1 4, prog_bind. destruct (points !! i) as [p|]; [|done].
  destruct (Hlens (lens w) p ks true 4096) as (t & l' & H1 & _).
  assert (Hf : fetch_psf p ks i w = call_psf_rgb p ks true 4096 w).
  { rewrite (fetch_first_ok _ _ i _ _ _ H1). unfold call_psf_rgb. by rewrite H1. }
  unfold mbind, prog_bind. by rewrite Hf.
Qed.

(** The requests of one [try] statement: one or two. *)
Lemma fetch_calls (p : field_point) (ks i : nat) (w : world L) :
  exists new, calls (fetch_psf p ks i w).2 = calls w ++ new /\
              1 <= length new <= 2.
Proof.
  destruct (psf_rgb (lens w) p ks true 4096) as [[t|e] l1] eqn:H1.
  - rewrite (fetch_first_ok _ _ _ _ _ _ H1). eexists. split; [reflexivity|]. cbn. lia.
  - destruct (is_AssertionError e) eqn:He.
    + destruct (psf_rgb l1 p ks false 4096) as [[t|e2] l2] eqn:H2.
      * rewrite (fetch_second_ok _ _ _ _ _ _ _ _ H1 He H2). cbn [snd calls].
        rewrite <- (assoc_L (++)). eexists. split; [reflexivity|]. cbn. lia.
      * rewrite (fetch_placeholder _ _ _ _ _ _ _ _ H1 He H2). cbn [snd calls].
        rewrite <- (assoc_L (++)). eexists. split; [reflexivity|]. cbn. lia.
    + rewrite (fetch_first_other _ _ _ _ _ _ H1 He). eexists. split; [reflexivity|].
      cbn. lia.
Qed.

Lemma robust_body_calls (points : list field_point) (ks : nat) (log_scale : bool)
    (i : nat) (psfs : list (tensor R)) (w : world L) :
  exists new,
    calls (robust_body EPSILON points ks log_scale i psfs w).2 = calls w ++ new /\
    length new <= 2 /\
    (forall acc, (robust_body EPSILON points ks log_scale i psfs w).1 = Ok acc ->
                 1 <= length new).
Proof.
  unfold robust_body, index, lift, mbind, prog_bind.
  destruct (points !! i) as [p|].
  - destruct (fetch_calls p ks i w) as (new & Hnew & Hlen).
    destruct (fetch_psf p ks i w) as [[t|e] w1]; cbn [snd] in Hnew.
    + exists new. destruct (scale_psf EPSILON log_scale t); cbn [fst snd];
        (split; [done|]; split; [lia|]; intros acc Hacc; (lia || discriminate Hacc)).
    + exists new. cbn [fst snd].
      split; [done|]. split; [lia|]. intros acc Hacc. discriminate Hacc.
  - exists []. cbn [fst snd]. rewrite app_nil_r.
    split; [done|]. split; [cbn; lia|]. intros acc Hacc. discriminate Hacc.
Qed.

Lemma robust_loop_calls (points : list field_point) (ks : nat) (log_scale : bool)
    (l : list nat) (psfs : list (tensor R)) (w : world L) :
  exists new,
    calls (for_each (robust_body EPSILON points ks log_scale) l psfs w).2 = calls w ++ new /\
    length new <= 2 * length l /\
    (forall acc, (for_each (robust_body EPSILON points ks log_scale) l psfs w).1 = Ok acc ->
                 length l <= length new).
Proof.
  revert psfs w. induction l as [|i l IH]; intros psfs w.
  - exists []. cbn. rewrite app_nil_r. split; [done|]. split; lia.
  - cbn [for_each]. unfold mbind, prog_bind.
    destruct (robust_body_calls points ks log_scale i psfs w) as (new1 & Hc1 & Hle1 & Hge1).
    destruct (robust_body EPSILON points ks log_scale i psfs w) as [[acc1|e] w1];
      cbn [fst snd] in *.
    + destruct (IH acc1 w1) as (new2 & Hc2 & Hle2 & Hge2).
      exists (new1 ++ new2). rewrite Hc2, Hc1, <- (assoc_L (++)).
      split; [done|]. rewrite length_app. cbn [length].
      specialize (Hge1 acc1 eq_refl). split; [lia|].
      intros acc Hacc. specialize (Hge2 acc Hacc). lia.
    + exists new1. split; [done|]. cbn [length]. split; [lia|].
      intros acc Hacc. discriminate Hacc.
Qed.

End RobustMore.

(** X20.  Whatever the lens does, the robust plotter asks it at most twice
    per field point, so at most [2 * M] times in a call, and at least [M]
    times in a call that returns. *)
Theorem robust_request_count {L} `{Lens L} {disk : Disk} (EPSILON : R) (M : nat)
    (d : depth) (ks : nat)
    (log_scale : bool) (save_name : string) (w : world L) :
  exists new,
    calls (robust_psf_radial EPSILON M d ks log_scale save_name w).2 = calls w ++ new /\
    length new <= 2 * M /\
    (forall name, (robust_psf_radial EPSILON M d ks log_scale save_name w).1 = Ok name ->
                  M <= length new).
Proof.
  destruct (robust_loop_calls EPSILON (robust_points M d) ks log_scale (seq 0 M) [] w)
    as (new & Hc & Hle & Hge).
  rewrite length_seq in Hle, Hge.
  exists new. unfold robust_psf_radial, mbind, prog_bind.
  destruct (for_each _ (seq 0 M) [] w) as [[psfs|e] w1]; cbn [fst snd] in *.
  - assert (Hkeep : calls (tile_and_save psfs M save_name w1).2 = calls w1).
    { unfold tile_and_save, lift, make_grid, mbind at 1, prog_bind.
      destruct (stack psfs); cbn [mbind result_bind mret result_ret]; [|done].
      unfold mbind at 1, prog_bind, save_image.
      by destruct (save_error save_name). }
    rewrite Hkeep. split; [done|]. split; [done|].
    intros name _. by apply (Hge psfs).
  - split; [done|]. split; [done|]. intros name Hname. discriminate Hname.
Qed.

Lemma robust_request_count_witness :
  exists new,
    calls (robust_psf_radial (disk := roomy_disk) 1e-9%R 2 (Finite 1000) 3 true
             "psf_radial.png" (fresh EdgyLens)).2 = [] ++ new /\
    length new <= 2 * 2.
Proof.
  destruct (robust_request_count (disk := roomy_disk) 1e-9%R 2 (Finite 1000) 3 true
              "psf_radial.png" (fresh EdgyLens)) as (new & Hc & Hle & _).
  by exists new.
Defined.

(** X21.  On a lens that never fails and returns [3, ks, ks] PSFs, with at
    least one field point, a kernel size of at least 1 and a [save_name]
    that [save_image] can write, the robust plotter is the strict pipeline
    on its own field points: one recentered request with 4096 samples per
    point and no retry, every image the scaled PSF of its point, no
    fallback message printed, the grid saved, [save_name] returned. *)
Theorem robust_on_steady_lens {L} `{Lens L} {disk : Disk} (EPSILON : R) (M : nat)
    (d : depth) (ks : nat)
    (log_scale : bool) (save_name : string) (w : world L) :
  always_succeeds L -> 0 < M -> 0 < ks -> save_error save_name = None ->
  exists raws outs w',
    robust_psf_radial EPSILON M d ks log_scale save_name w = (Ok save_name, w') /\
    length raws = M /\
    calls w' = calls w ++ zip_with (recentered ks) (robust_points M d) raws /\
    Forall2 (scaled EPSILON log_scale) raws outs /\
    stdout w' = stdout w ++ ["PSF radial has been saved to " +:+ save_name] /\
    files w' = <[save_name := ImageFile (Grid outs M 1 0%R) true]> (files w).
Proof.
  intros Hlens HM Hks Hfree.
  pose proof (points_length 0.7 M d) as Hlen. fold (robust_points M d) in Hlen.
  destruct (fixed_loop EPSILON (robust_points M d) ks log_scale w Hlens Hks)
    as (psfs & w1 & Hloop & raws & Hraws & Hcalls & Hsc & Hsh & Hout & Hfiles).
  rewrite Hlen in Hloop, Hraws, Hcalls.
  rewrite <- (for_each_ext (robust_body EPSILON (robust_points M d) ks log_scale))
    in Hloop by (intros; by apply robust_body_is_fixed).
  exists raws, psfs. eexists.
  unfold robust_psf_radial. rewrite (bind_ok _ _ _ _ _ Hloop).
  rewrite (tile_and_save_ok psfs [3; ks; ks]); [|
    apply Forall2_length in Hsc; destruct psfs; [cbn in Hsc; lia | done] | done | done].
  split; [reflexivity|]. cbn [calls stdout files].
  split; [done|]. split; [rewrite Hcalls, take_ge; [done | lia]|].
  split; [done|]. split; [by rewrite Hout | by rewrite Hfiles].
Qed.

Lemma robust_on_steady_lens_witness :
  exists w',
    robust_psf_radial (disk := roomy_disk) 1e-9%R 2 (Finite 1000) 3 true "psf_radial.png"
      (fresh SteadyLens)
    = (Ok "psf_radial.png", w') /\
    stdout w' = ["PSF radial has been saved to psf_radial.png"].
Proof.
  destruct (robust_on_steady_lens (disk := roomy_disk) 1e-9%R 2 (Finite 1000) 3 true
              "psf_radial.png" (fresh SteadyLens))
    as (raws & outs & w' & Hrun & _ & _ & _ & Hout & _).
  - apply steady_always_succeeds.
  - lia.
  - lia.
  - reflexivity.
  - exists w'. split; [exact Hrun | exact Hout].
Defined.

(** *** The placeholder *)

(** X22.  The placeholder is centred: in each of its three channels the
    pixel [(ks // 2, ks // 2)] holds the greatest value of the whole
    tensor, and that value is positive. *)
Theorem placeholder_peak (ks i : nat) :
  0 < ks ->
  exists t peak,
    placeholder ks i = Ok t /\
    (0 < peak)%R /\
    tmax t = Ok peak /\
    forall ch, ch < 3 -> data t !! centre_index ks ch = Some peak.
Proof.
  intros Hks.
  set (sigma := (2.0 + INR i * 1.5)%R).
  set (spot := gaussian_spot ks sigma).
  set (total := tsum spot).
  set (g := map (fun x => (x / total)%R) (data spot)).
  assert (Hlen : length (data spot) = ks * ks) by apply table_length.
  assert (Hglen : length g = ks * ks) by (unfold g; by rewrite length_map).
  assert (Htotal : (0 < total)%R).
  { apply sum_positive.
    - intros Hnil. rewrite Hnil in Hlen. cbn in Hlen. nia.
    - apply table_positive. intros r c. apply exp_pos. }
  assert (Hinv : (0 < / total)%R) by by apply Rinv_0_lt_compat.
  assert (Hrun : placeholder ks i = Ok (Tensor [3; ks; ks] (g ++ g ++ g))).
  { unfold placeholder, stack, tmap. fold sigma. fold spot. fold total.
    cbn [shape data forallb]. rewrite bool_decide_eq_true_2 by done.
    cbn [andb length map concat]. by rewrite app_nil_r. }
  assert (Hhalf : ks / 2 < ks) by (apply Nat.div_lt; lia).
  assert (Hcentre : g !! ((ks / 2) * ks + ks / 2) = Some (1 / total)%R).
  { unfold g. change (map ?h ?l) with (h <$> l). rewrite list_lookup_fmap.
    unfold spot, gaussian_spot. cbn [data].
    rewrite (table_lookup _ 0 ks ks _ _ Hhalf Hhalf).
    change (Some (gaussian_at ks sigma (ks / 2) (ks / 2) / total)%R = Some (1 / total)%R).
    by rewrite (proj2 (gaussian_at_centre ks sigma 0 0)). }
  assert (Hin : (ks / 2) * ks + ks / 2 < ks * ks) by nia.
  exists (Tensor [3; ks; ks] (g ++ g ++ g)), (1 / total)%R.
  split; [done|]. split; [unfold Rdiv; lra|]. split.
  - apply tmax_spec. cbn [data]. split.
    + apply in_or_app. left. apply list_elem_of_In. by eapply list_elem_of_lookup_2.
    + intros x Hx.
      assert (Hxg : In x g).
      { apply in_app_or in Hx as [Hx|Hx]; [done|].
        by apply in_app_or in Hx as [Hx|Hx]. }
      unfold g in Hxg. apply in_map_iff in Hxg as (y & <- & Hy).
      unfold spot, gaussian_spot in Hy. cbn [data] in Hy.
      apply in_flat_map in Hy as (r & _ & Hy).
      apply in_map_iff in Hy as (c & <- & _).
      pose proof (gaussian_at_centre ks sigma r c) as [Hle Hone].
      rewrite Hone in Hle. unfold Rdiv. apply Rmult_le_compat_r; lra.
  - intros ch Hch. unfold centre_index. cbn [data].
    destruct ch as [|[|[|ch]]]; [| | |lia].
    + rewrite lookup_app_l by (rewrite Hglen; lia). done.
    + rewrite lookup_app_r by (rewrite Hglen; lia).
      rewrite lookup_app_l by (rewrite Hglen; lia).
      rewrite Hglen. by replace (1 * (ks * ks) + _ - ks * ks) with ((ks / 2) * ks + ks / 2) by lia.
    + rewrite lookup_app_r by (rewrite Hglen; lia).
      rewrite lookup_app_r by (rewrite Hglen; lia).
      rewrite Hglen.
      by replace (2 * (ks * ks) + _ - ks * ks - ks * ks) with ((ks / 2) * ks + ks / 2) by lia.
Qed.

Lemma placeholder_peak_witness :
  exists t peak,
    placeholder 5 1 = Ok t /\ (0 < peak)%R /\ tmax t = Ok peak /\
    data t !! centre_index 5 1 = Some peak.
Proof.
  destruct (placeholder_peak 5 1) as (t & peak & Ht & Hpos & Hmax & Hc); [lia|].
  exists t, peak. repeat (split; [done|]). apply Hc. lia.
Defined.

(** X23.  On a lens that fails the validity assertion on every request,
    with at least one field point, a kernel size of at least 1 and a
    [save_name] that [save_image] can write, the robust plotter still
    returns: it makes the two failing requests for each field point, in
    order, and the image of field position [j] is the scaled placeholder
    of position [j]; the grid of these [M] images is saved under
    [save_name]. *)
Theorem all_placeholders {L} `{Lens L} {disk : Disk} (EPSILON : R) (M : nat) (d : depth)
    (ks : nat)
    (log_scale : bool) (save_name : string) (w : world L) :
  always_invalid L -> 0 < M -> 0 < ks -> save_error save_name = None ->
  exists outs w',
    robust_psf_radial EPSILON M d ks log_scale save_name w = (Ok save_name, w') /\
    length outs = M /\
    (forall j out, outs !! j = Some out ->
       exists t, placeholder ks j = Ok t /\ is_placeholder ks j t /\
                 scaled EPSILON log_scale t out) /\
    calls w' = calls w ++ concat (map (failed_pair ks) (robust_points M d)) /\
    files w' = <[save_name := ImageFile (Grid outs M 1 0%R) true]> (files w).
Proof.
  intros Hlens HM Hks Hfree.
  pose proof (points_length 0.7 M d) as Hlen. fold (robust_points M d) in Hlen.
  destruct (for_each_invariant
              (placeholder_invariant EPSILON (robust_points M d) ks log_scale w)
              (robust_body EPSILON (robust_points M d) ks log_scale) M)
    with (acc := @nil (tensor R)) (w := w)
    as (psfs & w1 & Hloop & Hn & Hcalls & Hsh & Himgs & Hfiles).
  - intros i psfs w1 Hi (Hn & Hcalls & Hsh & Himgs & Hfiles).
    destruct (lookup_lt_is_Some_2 (robust_points M d) i) as [p Hp]; [lia|].
    destruct (Hlens (lens w1) p ks true 4096) as (l1 & H1).
    destruct (Hlens l1 p ks false 4096) as (l2 & H2).
    destruct (placeholder_spec ks i Hks) as (t & Ht & _ & Hshaped).
    destruct (scale_psf_ok EPSILON log_scale t (shaped_nonempty ks t Hks Hshaped))
      as (out & Hs & Hscaled & Hshape & _).
    eexists (psfs ++ [out]), _. split.
    { unfold robust_body, index, lift, mbind, prog_bind. rewrite Hp.
      rewrite (fetch_placeholder _ _ i _ _ _ _ _ H1 eq_refl H2), Ht, Hs. reflexivity. }
    split; [rewrite length_app; cbn; lia|]. cbn [calls files].
    split.
    { rewrite Hcalls, (take_S_r _ _ _ Hp), map_app, concat_app.
      cbn [map concat failed_pair]. rewrite app_nil_r, <- !(assoc_L (++)). done. }
    split.
    { apply Forall_app. split; [done|]. constructor; [|done].
      destruct Hshaped as [Hsp _]. by rewrite Hshape. }
    split; [|done].
    intros j o Hj. destruct (decide (j < length psfs)) as [Hlt|Hge].
    + rewrite lookup_app_l in Hj by done. by apply Himgs.
    + rewrite lookup_app_r in Hj by lia.
      destruct (j - length psfs) as [|k] eqn:Hk; [|done].
      injection Hj as <-. replace j with i by lia. by exists t.
  - split; [done|]. cbn [take map concat]. rewrite app_nil_r.
    split; [done|]. split; [done|]. split; [|done].
    intros j out Hj. by rewrite lookup_nil in Hj.
  - exists psfs. eexists. unfold robust_psf_radial.
    rewrite (bind_ok _ _ _ _ _ Hloop).
    rewrite (tile_and_save_ok psfs [3; ks; ks]);
      [| destruct psfs; [cbn in Hn; lia | done] | done | done].
    split; [reflexivity|]. split; [done|]. cbn [calls files].
    split.
    { intros j out Hj. destruct (Himgs j out Hj) as (t & Ht & Hsc).
      destruct (placeholder_spec ks j Hks) as (t' & Ht' & Hspec & _).
      rewrite Ht in Ht'. injection Ht' as <-. by exists t. }
    split; [rewrite Hcalls, take_ge; [done | lia] | by rewrite Hfiles].
Qed.

Lemma invalid_always_invalid : always_invalid invalid_lens.
Proof. intros l p ks recenter spp. by exists l. Qed.

Lemma all_placeholders_witness :
  exists (outs : list (tensor R)) w',
    robust_psf_radial (disk := roomy_disk) 1e-9%R 2 (Finite 1000) 3 true "psf_radial.png"
      (fresh InvalidLens)
    = (Ok "psf_radial.png", w') /\
    length outs = 2 /\
    length (calls w') = 4.
Proof.
  destruct (all_placeholders (disk := roomy_disk) 1e-9%R 2 (Finite 1000) 3 true
              "psf_radial.png" (fresh InvalidLens))
    as (outs & w' & Hrun & Hlen & _ & Hcalls & _).
  - apply invalid_always_invalid.
  - lia.
  - lia.
  - reflexivity.
  - exists outs, w'. split; [exact Hrun|]. split; [exact Hlen|].
    rewrite Hcalls. reflexivity.
Defined.

End PsfMore.
